(** * Food delivery dispatch engine (streamlit_app.py)

    A shallow embedding of the order-dispatch core of [streamlit_app.py]:
    the restaurant chain, the rider roster, the order queue, the undo
    stack and the order-id counter, together with the four menu actions
    [place_order], [process_order], [show_riders_sorted] and
    [undo_last_action].

    Python integers are unbounded, so every integer is a [Z].  The five
    module-level globals become the fields of one [State] record that every
    action receives and returns; what an action prints becomes its result
    value.  Console input parsing is left to the caller: the actions take
    the integers that [int(input(...))] produced.  Sections 1 to 6 give the
    actions as they run when every print succeeds; section 6b adds the
    console, where reading can end or fail to parse and where formatting a
    number can raise in the middle of an action. *)

From stdpp Require Import base list strings pretty sorting.
From Stdlib Require Import ZArith Lia QArith DecimalString.

Open Scope Z_scope.

(** ** 1. Data models *)

Record Restaurant := mkRestaurant {
  rest_id : Z;
  rest_name : string;
  rest_rating : Q;
  rest_location : Z
}.

Record Rider := mkRider {
  rider_id : Z;
  rider_name : string;
  rider_location : Z;
  deliveries_done : Z
}.

Record Order := mkOrder {
  order_id : Z;
  restaurant_name : string;
  restaurant_loc : Z;
  customer_loc : Z
}.

(** ** 2. The restaurant chain

    [RestaurantLinkedList] is a chain of nodes reached from [head]; a node
    holds one restaurant ([data]) and the link to the following node
    ([next]), [None] ending the chain.  That is the shape of a list: [[]]
    for [None], [data :: next] for a node, the head node first. *)

Definition RestaurantLinkedList := list Restaurant.

(** [add_restaurant] walks to the last node and links the new node there. *)
Fixpoint add_restaurant (id : Z) (name : string) (rating : Q) (loc : Z)
    (chain : RestaurantLinkedList) : RestaurantLinkedList :=
  match chain with
  | [] => [mkRestaurant id name rating loc]
  | node :: next => node :: add_restaurant id name rating loc next
  end.

(** [find_by_id] walks the chain from the head and returns the first
    restaurant whose id matches, [None] at the end of the chain. *)
Fixpoint find_by_id (id : Z) (chain : RestaurantLinkedList) : option Restaurant :=
  match chain with
  | [] => None
  | data :: next =>
      if rest_id data =? id then Some data else find_by_id id next
  end.

(** ** 3. Global variables

    [my_riders] holds one object per rider, each created once in
    [initialize_data] and never stored twice, so a rider is identified by
    its position in the list and changing the object is changing the
    element at that position. *)

Record State := mkState {
  my_restaurants : RestaurantLinkedList;
  my_riders : list Rider;
  order_queue : list Order;      (* deque: append on the right, popleft *)
  undo_stack : list string;      (* list: append on the right, pop on the right *)
  order_id_counter : Z
}.

Definition globals : State := mkState [] [] [] [] 1.

(** ** 4. Helper functions *)

Definition initialize_data (s : State) : State :=
  let chain := my_restaurants s in
  let chain := add_restaurant 101 "Burger King" 4.5 2 chain in
  let chain := add_restaurant 102 "Pizza Hut" 4.2 8 chain in
  let chain := add_restaurant 103 "Subway" 4.0 5 chain in
  let riders := my_riders s in
  let riders := riders ++ [mkRider 201 "Ali" 1 0] in
  let riders := riders ++ [mkRider 202 "Bilal" 6 2] in
  let riders := riders ++ [mkRider 203 "Hamza" 3 0] in
  mkState chain riders (order_queue s) (undo_stack s) (order_id_counter s).

(** ** 5. Main features *)

(** *** place_order *)

Inductive PlaceResult :=
  | InvalidRestaurantID
  | Success (new_order_id : Z).

Definition place_order (rest_id cust_loc : Z) (s : State) : PlaceResult * State :=
  match find_by_id rest_id (my_restaurants s) with
  | None => (InvalidRestaurantID, s)
  | Some r =>
      let new_order := mkOrder (order_id_counter s) (rest_name r) (rest_location r) cust_loc in
      (Success (order_id new_order),
       mkState (my_restaurants s) (my_riders s)
         (order_queue s ++ [new_order])
         (undo_stack s ++ ["Placed Order #" +:+ pretty (order_id new_order)])
         (order_id_counter s + 1))
  end.

(** *** process_order *)

(** The [for rider in my_riders] loop.  [best_rider] is a reference to an
    element of the roster: it is kept as the position of that element
    together with the element found there.  [i] is the position of the
    rider the loop is looking at. *)
Fixpoint scan_riders (restaurant_loc : Z) (riders : list Rider) (i : nat)
    (best_rider : option (nat * Rider)) (min_distance : Z)
    : option (nat * Rider) * Z :=
  match riders with
  | [] => (best_rider, min_distance)
  | rider :: rest =>
      let dist := Z.abs (rider_location rider - restaurant_loc) in
      if dist <? min_distance
      then scan_riders restaurant_loc rest (S i) (Some (i, rider)) dist
      else scan_riders restaurant_loc rest (S i) best_rider min_distance
  end.

Inductive ProcessResult :=
  | NoOrdersPending
  | Assigned (current_order : Order) (best_position : nat) (best_rider : Rider)
             (min_distance dist_to_cust total_dist : Z)
  | NoRidersFound (current_order : Order).

Definition process_order (s : State) : ProcessResult * State :=
  match order_queue s with
  | [] => (NoOrdersPending, s)
  | current_order :: pending =>
      match scan_riders (restaurant_loc current_order) (my_riders s) 0 None 1000 with
      | (Some (pos, best_rider), min_distance) =>
          let dist_to_cust :=
            Z.abs (restaurant_loc current_order - customer_loc current_order) in
          let total_dist := min_distance + dist_to_cust in
          let best_rider :=
            mkRider (rider_id best_rider) (rider_name best_rider)
              (customer_loc current_order) (deliveries_done best_rider + 1) in
          (Assigned current_order pos best_rider min_distance dist_to_cust total_dist,
           mkState (my_restaurants s) (<[pos := best_rider]> (my_riders s)) pending
             (undo_stack s ++ ["Processed Order #" +:+ pretty (order_id current_order)])
             (order_id_counter s))
      | (None, _) =>
          (NoRidersFound current_order,
           mkState (my_restaurants s) (my_riders s) pending (undo_stack s)
             (order_id_counter s))
      end
  end.

(** *** show_riders_sorted

    [list.sort(key=...)] is the interpreter's built-in: it sorts the list
    in place, compares keys with [<] only, and is guaranteed stable.  It is
    modelled by a stable insertion sort that also compares keys with [<]
    only; [list_sort_unique] below shows that a sorted, stable rearrangement
    is unique, so every stable sort computes this function. *)

Fixpoint insert_by {A} (key : A → Z) (x : A) (l : list A) : list A :=
  match l with
  | [] => [x]
  | y :: l' => if key y <? key x then y :: insert_by key x l' else x :: y :: l'
  end.

Definition list_sort {A} (key : A → Z) (l : list A) : list A :=
  foldr (insert_by key) [] l.

Definition show_riders_sorted (s : State) : list Rider * State :=
  let sorted := list_sort deliveries_done (my_riders s) in
  (sorted,
   mkState (my_restaurants s) sorted (order_queue s) (undo_stack s)
     (order_id_counter s)).

(** *** undo_last_action *)

Inductive UndoResult :=
  | NothingToUndo
  | Undoing (last_action : string).

(** [list.pop()]: removes and returns the last element. *)
Definition list_pop {A} (l : list A) : option (A * list A) :=
  match reverse l with
  | [] => None
  | x :: front => Some (x, reverse front)
  end.

Definition undo_last_action (s : State) : UndoResult * State :=
  match list_pop (undo_stack s) with
  | None => (NothingToUndo, s)
  | Some (last_action, rest) =>
      (Undoing last_action,
       mkState (my_restaurants s) (my_riders s) (order_queue s) rest
         (order_id_counter s))
  end.

(** ** 6. The menu loop

    One iteration of [main] reads a choice and runs the matching action. *)

Inductive Choice :=
  | PlaceNewOrder (rest_id cust_loc : Z)
  | ProcessNextOrder
  | ViewRiders
  | UndoLastAction.

Inductive Output :=
  | OutPlace (r : PlaceResult)
  | OutProcess (r : ProcessResult)
  | OutRiders (r : list Rider)
  | OutUndo (r : UndoResult).

Definition step (c : Choice) (s : State) : Output * State :=
  match c with
  | PlaceNewOrder rest_id cust_loc =>
      let '(r, s') := place_order rest_id cust_loc s in (OutPlace r, s')
  | ProcessNextOrder =>
      let '(r, s') := process_order s in (OutProcess r, s')
  | ViewRiders =>
      let '(r, s') := show_riders_sorted s in (OutRiders r, s')
  | UndoLastAction =>
      let '(r, s') := undo_last_action s in (OutUndo r, s')
  end.

Fixpoint run (choices : list Choice) (s : State) : list Output * State :=
  match choices with
  | [] => ([], s)
  | c :: rest =>
      let '(out, s') := step c s in
      let '(outs, s'') := run rest s' in
      (out :: outs, s'')
  end.

Definition seeded : State := initialize_data globals.

(** ** 6b. The console

    [main] seeds the data and then serves the menu until the choice is
    ['5'].  The console is the list of the lines [input()] will return, one
    per call; when the lines run out [input()] raises [EOFError], which
    nothing catches, and the program stops there.

    Two conversions belong to the interpreter and are parameters here.
    [parse_int] is [int(...)] on a line, [None] standing for [ValueError];
    [place_order] catches that one.  [printable] tells whether an integer
    can be formatted into a string: recent interpreters raise [ValueError]
    for an integer of more than 4300 digits, and no action catches it.  The
    actions above are the actions when every number they print can be
    formatted; the actions below stop at the first number that cannot,
    with the globals as the statements before that print left them. *)

(** The two parameters as the examples take them: lines that are plain
    decimal numerals, and integers that can be formatted when they have at
    most [digits] digits.  The interpreter's limit is 4300 digits unless
    [sys.set_int_max_str_digits] changed it; 640 is the least it accepts. *)
Definition parse_decimal (line : string) : option Z :=
  Z.of_int <$> NilZero.int_of_string line.

Definition printable_upto (digits : Z) (z : Z) : bool := Z.abs z <? 10 ^ digits.

Inductive Console (A : Type) :=
  | Completed (result : A) (s : State)
  | Raised (s : State).

Arguments Completed {A} result s.
Arguments Raised {A} s.

(** [display]: one line per node, showing its id and location; whether
    every line could be printed. *)
Fixpoint display (printable : Z → bool) (chain : RestaurantLinkedList) : bool :=
  match chain with
  | [] => true
  | data :: next =>
      printable (rest_id data) && printable (rest_location data)
      && display printable next
  end.

(** [place_order] from the lookup on: the history entry is formatted after
    the counter moved on and the order joined the queue. *)
Definition place_order_console (printable : Z → bool) (rest_id cust_loc : Z)
    (s : State) : Console PlaceResult :=
  match find_by_id rest_id (my_restaurants s) with
  | None => Completed InvalidRestaurantID s
  | Some r =>
      let new_order := mkOrder (order_id_counter s) (rest_name r) (rest_location r) cust_loc in
      if printable (order_id new_order)
      then Completed (Success (order_id new_order))
             (mkState (my_restaurants s) (my_riders s)
                (order_queue s ++ [new_order])
                (undo_stack s ++ ["Placed Order #" +:+ pretty (order_id new_order)])
                (order_id_counter s + 1))
      else Raised
             (mkState (my_restaurants s) (my_riders s)
                (order_queue s ++ [new_order]) (undo_stack s)
                (order_id_counter s + 1))
  end.

(** [process_order]: the order id is printed once the order is off the
    queue; the three times are printed once the rider is updated and
    before the history entry is written. *)
Definition process_order_console (printable : Z → bool) (s : State)
    : Console ProcessResult :=
  match order_queue s with
  | [] => Completed NoOrdersPending s
  | current_order :: pending =>
      if printable (order_id current_order) then
        match scan_riders (restaurant_loc current_order) (my_riders s) 0 None 1000 with
        | (Some (pos, best_rider), min_distance) =>
            let dist_to_cust :=
              Z.abs (restaurant_loc current_order - customer_loc current_order) in
            let total_dist := min_distance + dist_to_cust in
            let best_rider :=
              mkRider (rider_id best_rider) (rider_name best_rider)
                (customer_loc current_order) (deliveries_done best_rider + 1) in
            if printable min_distance && printable dist_to_cust && printable total_dist
            then Completed
                   (Assigned current_order pos best_rider min_distance dist_to_cust total_dist)
                   (mkState (my_restaurants s) (<[pos := best_rider]> (my_riders s)) pending
                      (undo_stack s
                         ++ ["Processed Order #" +:+ pretty (order_id current_order)])
                      (order_id_counter s))
            else Raised
                   (mkState (my_restaurants s) (<[pos := best_rider]> (my_riders s)) pending
                      (undo_stack s) (order_id_counter s))
        | (None, _) =>
            Completed (NoRidersFound current_order)
              (mkState (my_restaurants s) (my_riders s) pending (undo_stack s)
                 (order_id_counter s))
        end
      else Raised
             (mkState (my_restaurants s) (my_riders s) pending (undo_stack s)
                (order_id_counter s))
  end.

(** [show_riders_sorted]: the roster is sorted first, then one line per
    rider shows its location and its deliveries. *)
Definition show_riders_sorted_console (printable : Z → bool) (s : State)
    : Console (list Rider) :=
  let sorted := list_sort deliveries_done (my_riders s) in
  let s' := mkState (my_restaurants s) sorted (order_queue s) (undo_stack s)
              (order_id_counter s) in
  if forallb (λ r, printable (rider_location r) && printable (deliveries_done r)) sorted
  then Completed sorted s'
  else Raised s'.

Inductive Event :=
  | Ran (out : Output)
  | InvalidInput
  | InvalidChoice.

Inductive Ending :=
  | Exited
  | EndOfInput
  | Traceback.

Definition after (e : Event) (rest : list Event * Ending * State)
    : list Event * Ending * State :=
  let '(events, ending, s) := rest in (e :: events, ending, s).

Fixpoint main_loop (printable : Z → bool) (parse_int : string → option Z)
    (lines : list string) (s : State) : list Event * Ending * State :=
  match lines with
  | [] => ([], EndOfInput, s)
  | choice :: lines =>
      if String.eqb choice "1" then
        (* place_order: the restaurants are shown, then two numbers read *)
        if display printable (my_restaurants s) then
          match lines with
          | [] => ([], EndOfInput, s)
          | line :: lines =>
              match parse_int line with
              | None => after InvalidInput (main_loop printable parse_int lines s)
              | Some rest_id =>
                  match lines with
                  | [] => ([], EndOfInput, s)
                  | line :: lines =>
                      match parse_int line with
                      | None => after InvalidInput (main_loop printable parse_int lines s)
                      | Some cust_loc =>
                          match place_order_console printable rest_id cust_loc s with
                          | Completed r s' =>
                              after (Ran (OutPlace r))
                                (main_loop printable parse_int lines s')
                          | Raised s' => ([], Traceback, s')
                          end
                      end
                  end
              end
          end
        else ([], Traceback, s)
      else if String.eqb choice "2" then
        match process_order_console printable s with
        | Completed r s' =>
            after (Ran (OutProcess r)) (main_loop printable parse_int lines s')
        | Raised s' => ([], Traceback, s')
        end
      else if String.eqb choice "3" then
        match show_riders_sorted_console printable s with
        | Completed r s' =>
            after (Ran (OutRiders r)) (main_loop printable parse_int lines s')
        | Raised s' => ([], Traceback, s')
        end
      else if String.eqb choice "4" then
        let '(r, s') := undo_last_action s in
        after (Ran (OutUndo r)) (main_loop printable parse_int lines s')
      else if String.eqb choice "5" then ([], Exited, s)
      else after InvalidChoice (main_loop printable parse_int lines s)
  end.

Definition main (printable : Z → bool) (parse_int : string → option Z)
    (lines : list string) : list Event * Ending * State :=
  main_loop printable parse_int lines (initialize_data globals).

(** ** 7. Vocabulary of the statements *)

(** The distance the loop computes for one rider. *)
Definition dist_to (restaurant_loc : Z) (rider : Rider) : Z :=
  Z.abs (rider_location rider - restaurant_loc).

(** The rider record as [process_order] leaves it after a delivery. *)
Definition delivered (o : Order) (r : Rider) : Rider :=
  mkRider (rider_id r) (rider_name r) (customer_loc o) (deliveries_done r + 1).

(** The order id a menu action handed out, if it handed one out. *)
Definition placed_id (out : Output) : option Z :=
  match out with
  | OutPlace (Success new_order_id) => Some new_order_id
  | _ => None
  end.

Definition placed_ids (outs : list Output) : list Z := omap placed_id outs.

(** The order a menu action took off the queue, if it took one. *)
Definition dequeued (out : Output) : option Order :=
  match out with
  | OutProcess (Assigned current_order _ _ _ _ _) => Some current_order
  | OutProcess (NoRidersFound current_order) => Some current_order
  | _ => None
  end.

Definition dequeued_orders (outs : list Output) : list Order := omap dequeued outs.

(** A batch of submissions, each a restaurant id with a customer location. *)
Definition place_all (submissions : list (Z * Z)) : list Choice :=
  (λ sub, PlaceNewOrder (fst sub) (snd sub)) <$> submissions.

(** [o] carries the snapshot of the restaurant that submission [sub] names
    and the customer location of [sub]. *)
Definition order_for (chain : RestaurantLinkedList) (o : Order) (sub : Z * Z) : Prop :=
  ∃ r, find_by_id (fst sub) chain = Some r
       ∧ restaurant_name o = rest_name r
       ∧ restaurant_loc o = rest_location r
       ∧ customer_loc o = snd sub.

(** Ascending order of keys, as [list.sort(key=...)] arranges them. *)
Definition key_le {A} (key : A → Z) (a b : A) : Prop := key a ≤ key b.

(** Who a rider is: its id and its name, which no action changes. *)
Definition identity (r : Rider) : Z * string := (rider_id r, rider_name r).

(** Whether a menu choice orders from a restaurant of the chain. *)
Definition orders_from (chain : RestaurantLinkedList) (c : Choice) : bool :=
  match c with
  | PlaceNewOrder rid _ => bool_decide (rid ∈ rest_id <$> chain)
  | _ => false
  end.

(** Whether an action of a session took back a history entry or tried to. *)
Definition is_undo (e : Event) : bool :=
  match e with
  | Ran (OutUndo _) => true
  | _ => false
  end.

(** The engine as the program starts it, over any registry and roster. *)
Definition engine (chain : RestaurantLinkedList) (riders : list Rider) : State :=
  mkState chain riders (order_queue globals) (undo_stack globals)
    (order_id_counter globals).

(** The outputs of the actions a console session ran. *)
Definition ran (e : Event) : option Output :=
  match e with
  | Ran out => Some out
  | _ => None
  end.

Definition ran_outputs (events : list Event) : list Output := omap ran events.


(** The history entry an action writes, if it writes one. *)
Definition description (out : Output) : option string :=
  match out with
  | OutPlace (Success new_order_id) => Some ("Placed Order #" +:+ pretty new_order_id)
  | OutProcess (Assigned current_order _ _ _ _ _) =>
      Some ("Processed Order #" +:+ pretty (order_id current_order))
  | _ => None
  end.

(** The history entry an action took back, if it took one back. *)
Definition undone (out : Output) : option string :=
  match out with
  | OutUndo (Undoing last_action) => Some last_action
  | _ => None
  end.

(** The rider an action assigned, if it assigned one. *)
Definition assigned (out : Output) : option Rider :=
  match out with
  | OutProcess (Assigned _ _ best_rider _ _ _) => Some best_rider
  | _ => None
  end.

(** The deliveries the whole roster has done. *)
Definition total_deliveries (riders : list Rider) : Z :=
  foldr Z.add 0 (deliveries_done <$> riders).

(** A console session, given by its events, its ending and the state it
    stopped in, follows a run of menu choices from [s]: the actions it
    completed are the outputs of the run, it took back history only where
    the run does, it stops in the state of the run unless a print raised,
    and even then with the restaurants and the history of the run. *)
Definition follows_run (printable : Z → bool)
    (session : list Event * Ending * State) (s : State) : Prop :=
  ∃ choices,
    ran_outputs (fst (fst session)) = fst (run choices s)
    ∧ (Forall (λ e, is_undo e = false) (fst (fst session)) → UndoLastAction ∉ choices)
    ∧ (snd (fst session) ≠ Traceback → snd session = snd (run choices s))
    ∧ (snd (fst session) = Traceback → ∃ z, printable z = false)
    ∧ my_restaurants (snd session) = my_restaurants s
    ∧ undo_stack (snd session) = undo_stack (snd (run choices s)).

(** * Properties *)

(** ** The nearest-rider scan *)

Section Scan.
Variable loc : Z.

(** What the loop returns, from any point of the iteration: either no
    rider beat the incoming bound, or the winner is the earliest rider
    of the remaining ones with the least distance, below the bound. *)
Lemma scan_riders_inv riders : ∀ i best m res m',
  scan_riders loc riders i best m = (res, m') →
  (res = best ∧ m' = m ∧ Forall (λ r, m ≤ dist_to loc r) riders)
  ∨ (∃ k r, res = Some ((i + k)%nat, r) ∧ riders !! k = Some r
       ∧ m' = dist_to loc r ∧ m' < m
       ∧ (∀ j rj, riders !! j = Some rj → m' ≤ dist_to loc rj)
       ∧ (∀ j rj, (j < k)%nat → riders !! j = Some rj → m' < dist_to loc rj)).
Proof.
  induction riders as [|rider rest IH]; intros i best m res m' Hscan; simpl in Hscan.
  - left. inversion Hscan; subst. repeat split; constructor.
  - fold (dist_to loc rider) in Hscan.
    destruct (Z.ltb_spec (dist_to loc rider) m) as [Hlt|Hge];
      apply IH in Hscan as [(-> & -> & Hall)|(k & r & -> & Hk & -> & Hlt' & Hmin & Hfirst)].
    + right. exists 0%nat, rider. rewrite Nat.add_0_r.
      repeat split; auto.
      * intros [|j] rj; simpl; intros Hj.
        -- inversion Hj; subst; lia.
        -- rewrite Forall_lookup in Hall. apply (Hall j rj Hj).
      * intros j rj Hj; lia.
    + right. exists (S k), r. replace (i + S k)%nat with (S i + k)%nat by lia.
      repeat split; auto; try lia.
      * intros [|j] rj; simpl; intros Hj.
        -- inversion Hj; subst; lia.
        -- eauto.
      * intros [|j] rj Hjk; simpl; intros Hj.
        -- inversion Hj; subst; lia.
        -- apply (Hfirst j rj); [lia|done].
    + left. repeat split; auto.
    + right. exists (S k), r. replace (i + S k)%nat with (S i + k)%nat by lia.
      repeat split; auto.
      * intros [|j] rj; simpl; intros Hj.
        -- inversion Hj; subst; lia.
        -- eauto.
      * intros [|j] rj Hjk; simpl; intros Hj.
        -- inversion Hj; subst; lia.
        -- apply (Hfirst j rj); [lia|done].
Qed.

(** The loop as [process_order] starts it. *)
Lemma scan_riders_found riders pos r d :
  scan_riders loc riders 0 None 1000 = (Some (pos, r), d) →
  riders !! pos = Some r ∧ d = dist_to loc r ∧ d < 1000
  ∧ (∀ j rj, riders !! j = Some rj → d ≤ dist_to loc rj)
  ∧ (∀ j rj, (j < pos)%nat → riders !! j = Some rj → d < dist_to loc rj).
Proof.
  intros Hscan.
  apply scan_riders_inv in Hscan as [(Hnone & _)|(k & r' & Heq & Hk & -> & Hlt & Hmin & Hfirst)].
  - discriminate.
  - simpl in Heq. inversion Heq; subst. auto.
Qed.

Lemma scan_riders_none riders d :
  scan_riders loc riders 0 None 1000 = (None, d) →
  d = 1000 ∧ Forall (λ r, 1000 ≤ dist_to loc r) riders.
Proof.
  intros Hscan.
  apply scan_riders_inv in Hscan as [(_ & -> & Hall)|(k & r' & Heq & _)].
  - auto.
  - discriminate.
Qed.

(** A rider closer than the initial bound makes the loop pick one. *)
Lemma scan_riders_some riders j rj :
  riders !! j = Some rj → dist_to loc rj < 1000 →
  ∃ pos r d, scan_riders loc riders 0 None 1000 = (Some (pos, r), d).
Proof.
  intros Hj Hlt.
  destruct (scan_riders loc riders 0 None 1000) as [[[pos r]|] d] eqn:Hscan.
  - eauto.
  - apply scan_riders_none in Hscan as [_ Hall].
    rewrite Forall_lookup in Hall. specialize (Hall j rj Hj). simpl in Hall. lia.
Qed.
End Scan.

(** ** process_order *)

Lemma process_order_empty_queue s :
  order_queue s = [] → process_order s = (NoOrdersPending, s).
Proof. intros Hq. unfold process_order. by rewrite Hq. Qed.

(** Every way [process_order] can end, read off the state it started in. *)
Lemma process_order_cases s o pending :
  order_queue s = o :: pending →
  (∃ pos r,
      my_riders s !! pos = Some r
      ∧ dist_to (restaurant_loc o) r < 1000
      ∧ (∀ j rj, my_riders s !! j = Some rj →
           dist_to (restaurant_loc o) r ≤ dist_to (restaurant_loc o) rj)
      ∧ (∀ j rj, (j < pos)%nat → my_riders s !! j = Some rj →
           dist_to (restaurant_loc o) r < dist_to (restaurant_loc o) rj)
      ∧ process_order s =
          (Assigned o pos (delivered o r) (dist_to (restaurant_loc o) r)
             (Z.abs (restaurant_loc o - customer_loc o))
             (dist_to (restaurant_loc o) r + Z.abs (restaurant_loc o - customer_loc o)),
           mkState (my_restaurants s) (<[pos := delivered o r]> (my_riders s)) pending
             (undo_stack s ++ ["Processed Order #" +:+ pretty (order_id o)])
             (order_id_counter s)))
  ∨ (Forall (λ r, 1000 ≤ dist_to (restaurant_loc o) r) (my_riders s)
     ∧ process_order s =
         (NoRidersFound o,
          mkState (my_restaurants s) (my_riders s) pending (undo_stack s)
            (order_id_counter s))).
Proof.
  intros Hq. unfold process_order. rewrite Hq.
  destruct (scan_riders (restaurant_loc o) (my_riders s) 0 None 1000)
    as [[[pos r]|] d] eqn:Hscan.
  - left. apply scan_riders_found in Hscan as (Hpos & -> & Hlt & Hmin & Hfirst).
    exists pos, r. repeat split; auto.
  - right. apply scan_riders_none in Hscan as [_ Hall]. split; auto.
Qed.

(** X15.  With some rider closer than 1000 to the restaurant, the order
    goes to the earliest rider of the roster among those at the least
    distance. *)
Lemma process_order_nearest s o pending j rj :
  order_queue s = o :: pending →
  my_riders s !! j = Some rj → dist_to (restaurant_loc o) rj < 1000 →
  ∃ pos r,
    my_riders s !! pos = Some r
    ∧ (∀ j rj, my_riders s !! j = Some rj →
         dist_to (restaurant_loc o) r ≤ dist_to (restaurant_loc o) rj)
    ∧ (∀ j rj, (j < pos)%nat → my_riders s !! j = Some rj →
         dist_to (restaurant_loc o) r < dist_to (restaurant_loc o) rj)
    ∧ ∃ dc total s',
        process_order s =
          (Assigned o pos (delivered o r) (dist_to (restaurant_loc o) r) dc total, s').
Proof.
  intros Hq Hj Hlt.
  destruct (process_order_cases s o pending Hq)
    as [(pos & r & Hpos & _ & Hmin & Hfirst & Hrun)|[Hall _]].
  - exists pos, r. repeat split; auto. eauto.
  - rewrite Forall_lookup in Hall. specialize (Hall j rj Hj). simpl in Hall. lia.
Qed.

(** With an empty roster the head order is taken off the queue and
    nothing else changes. *)
Lemma process_order_empty_roster s o pending :
  my_riders s = [] → order_queue s = o :: pending →
  process_order s =
    (NoRidersFound o,
     mkState (my_restaurants s) [] pending (undo_stack s) (order_id_counter s)).
Proof.
  intros Hr Hq. unfold process_order. rewrite Hq, Hr. reflexivity.
Qed.

(** C1 (the code departs from the claim).  From the seeded data, three
    orders with customer location 5000 move all three riders to 5000.  The
    roster is then non-empty and Ali, first in roster order, is at the
    least distance 4998 from restaurant 101; yet [process_order] assigns
    no rider to order 4, because the loop starts from the bound 1000 and
    only takes a rider strictly below it. *)
Theorem process_order_bound_skips_nearest :
  let s := snd (run [PlaceNewOrder 101 5000; PlaceNewOrder 101 5000;
                     PlaceNewOrder 101 5000; ProcessNextOrder; ProcessNextOrder;
                     ProcessNextOrder; PlaceNewOrder 101 7] seeded) in
  my_riders s = [mkRider 201 "Ali" 5000 1; mkRider 202 "Bilal" 5000 3;
                 mkRider 203 "Hamza" 5000 1]
  ∧ order_queue s = [mkOrder 4 "Burger King" 2 7]
  ∧ Forall (λ r, dist_to 2 r = 4998) (my_riders s)
  ∧ fst (process_order s) = NoRidersFound (mkOrder 4 "Burger King" 2 7)
  ∧ my_riders (snd (process_order s)) = my_riders s.
Proof.
  vm_compute. repeat split; repeat constructor.
Qed.

(** C2 (the code departs from the claim).  From the seeded data, three
    deliveries to customer location 3000 leave the roster with its three
    riders, none of them removed.  Processing the next order, for
    restaurant 103 at location 5, reports [NoRidersFound] although the
    roster is not empty; the order is taken off the queue all the same. *)
Theorem process_order_no_riders_nonempty_roster :
  let s := snd (run [PlaceNewOrder 102 3000; ProcessNextOrder;
                     PlaceNewOrder 102 3000; ProcessNextOrder;
                     PlaceNewOrder 102 3000; ProcessNextOrder;
                     PlaceNewOrder 103 9] seeded) in
  length (my_riders s) = 3%nat
  ∧ my_riders s ≠ []
  ∧ process_order s =
      (NoRidersFound (mkOrder 4 "Subway" 5 9),
       mkState (my_restaurants s) (my_riders s) [] (undo_stack s) (order_id_counter s)).
Proof.
  vm_compute. repeat split. discriminate.
Qed.

(** C4.  Whenever [process_order] assigns an order, the order is the head
    of the queue, the reported distances are
    [|rider.location - restaurant_loc|] for the assigned rider,
    [|restaurant_loc - customer_loc|] and their sum, and in the new roster
    the assigned rider has one more delivery and stands at the order's
    customer location; its id and name, and every other rider, are as
    before. *)
Theorem process_order_assigned s o pos r' dr dc total s' :
  process_order s = (Assigned o pos r' dr dc total, s') →
  ∃ r pending,
    order_queue s = o :: pending
    ∧ my_riders s !! pos = Some r
    ∧ dr = Z.abs (rider_location r - restaurant_loc o)
    ∧ dc = Z.abs (restaurant_loc o - customer_loc o)
    ∧ total = dr + dc
    ∧ my_riders s' !! pos = Some r'
    ∧ deliveries_done r' = deliveries_done r + 1
    ∧ rider_location r' = customer_loc o
    ∧ rider_id r' = rider_id r
    ∧ rider_name r' = rider_name r
    ∧ length (my_riders s') = length (my_riders s)
    ∧ ∀ j, j ≠ pos → my_riders s' !! j = my_riders s !! j.
Proof.
  intros Hrun.
  destruct (order_queue s) as [|o0 pending] eqn:Hq.
  { rewrite process_order_empty_queue in Hrun by done. discriminate. }
  destruct (process_order_cases s o0 pending Hq)
    as [(p & r & Hp & _ & _ & _ & Heq)|[_ Heq]];
    rewrite Heq in Hrun; [|discriminate].
  inversion Hrun; subst; clear Hrun.
  exists r, pending. simpl.
  repeat split; auto.
  - apply list_lookup_insert_eq. by eapply lookup_lt_Some.
  - apply length_insert.
  - intros j Hj. by apply list_lookup_insert_ne.
Qed.

Lemma process_order_assigned_witness :
  ∃ r pending,
    order_queue (snd (place_order 101 7 seeded)) = mkOrder 1 "Burger King" 2 7 :: pending
    ∧ my_riders (snd (place_order 101 7 seeded)) !! 0%nat = Some r
    ∧ 1 = Z.abs (rider_location r - 2)
    ∧ 5 = Z.abs (2 - 7)
    ∧ 6 = 1 + 5
    ∧ my_riders (snd (process_order (snd (place_order 101 7 seeded)))) !! 0%nat
        = Some (mkRider 201 "Ali" 7 1)
    ∧ 1 = deliveries_done r + 1
    ∧ 7 = 7
    ∧ 201 = rider_id r
    ∧ "Ali" = rider_name r
    ∧ length (my_riders (snd (process_order (snd (place_order 101 7 seeded)))))
        = length (my_riders (snd (place_order 101 7 seeded)))
    ∧ ∀ j, j ≠ 0%nat →
        my_riders (snd (process_order (snd (place_order 101 7 seeded)))) !! j
        = my_riders (snd (place_order 101 7 seeded)) !! j.
Proof.
  apply (process_order_assigned (snd (place_order 101 7 seeded))
           (mkOrder 1 "Burger King" 2 7) 0 (mkRider 201 "Ali" 7 1) 1 5 6
           (snd (process_order (snd (place_order 101 7 seeded))))).
  reflexivity.
Defined.

(** ** undo_last_action *)

Lemma list_pop_nil {A} : list_pop (@nil A) = None.
Proof. reflexivity. Qed.

Lemma list_pop_snoc {A} (l : list A) x : list_pop (l ++ [x]) = Some (x, l).
Proof. unfold list_pop. by rewrite reverse_snoc, reverse_involutive. Qed.

Lemma list_pop_None {A} (l : list A) : list_pop l = None → l = [].
Proof.
  destruct l as [|x l _] using rev_ind; [done|]. by rewrite list_pop_snoc.
Qed.

(** C8.  On an empty history [undo_last_action] reports that there is
    nothing to undo and returns the state as it was; otherwise it returns
    the entry appended last and the state with that one entry taken off
    the history, the restaurants, riders, queue and counter being the very
    same.  In particular the roster that [process_order] left behind is
    still there after the undo. *)
Theorem undo_last_action_only_pops :
  (∀ regs riders queue counter,
      undo_last_action (mkState regs riders queue [] counter)
      = (NothingToUndo, mkState regs riders queue [] counter))
  ∧ (∀ regs riders queue history last counter,
      undo_last_action (mkState regs riders queue (history ++ [last]) counter)
      = (Undoing last, mkState regs riders queue history counter))
  ∧ (∀ s,
      my_restaurants (snd (undo_last_action s)) = my_restaurants s
      ∧ my_riders (snd (undo_last_action s)) = my_riders s
      ∧ order_queue (snd (undo_last_action s)) = order_queue s
      ∧ order_id_counter (snd (undo_last_action s)) = order_id_counter s)
  ∧ (∀ s,
      my_riders (snd (undo_last_action (snd (process_order s))))
      = my_riders (snd (process_order s))).
Proof.
  assert (Hframe : ∀ s,
      my_restaurants (snd (undo_last_action s)) = my_restaurants s
      ∧ my_riders (snd (undo_last_action s)) = my_riders s
      ∧ order_queue (snd (undo_last_action s)) = order_queue s
      ∧ order_id_counter (snd (undo_last_action s)) = order_id_counter s).
  { intros s. unfold undo_last_action.
    destruct (list_pop (undo_stack s)) as [[last rest]|]; done. }
  split; [|split; [|split]].
  - reflexivity.
  - intros regs riders queue history last counter.
    unfold undo_last_action; simpl. by rewrite list_pop_snoc.
  - exact Hframe.
  - intros s. apply Hframe.
Qed.

(** The end-to-end scenario: order 1 for restaurant 101 with customer
    location 7 goes to Ali, and undoing the log entry leaves Ali at 7 with
    one delivery. *)
Example undo_keeps_ali_moved :
  let '(outs, s) := run [PlaceNewOrder 101 7; ProcessNextOrder; UndoLastAction] seeded in
  outs = [OutPlace (Success 1);
          OutProcess (Assigned (mkOrder 1 "Burger King" 2 7) 0
                        (mkRider 201 "Ali" 7 1) 1 5 6);
          OutUndo (Undoing "Processed Order #1")]
  ∧ my_riders s !! 0%nat = Some (mkRider 201 "Ali" 7 1)
  ∧ undo_stack s = ["Placed Order #1"].
Proof. vm_compute. done. Qed.

(** C10.  When [process_order] takes an order off the queue and assigns no
    rider, the history is exactly as before, so the next
    [undo_last_action] answers as it would have before the attempt: it
    returns the entry that was last at that time. *)
Theorem process_order_no_rider_leaves_history s o s' :
  process_order s = (NoRidersFound o, s') →
  undo_stack s' = undo_stack s
  ∧ fst (undo_last_action s') = fst (undo_last_action s)
  ∧ (∀ history last, undo_stack s = history ++ [last] →
       fst (undo_last_action s') = Undoing last
       ∧ undo_stack (snd (undo_last_action s')) = history).
Proof.
  intros Hrun.
  assert (Hstack : undo_stack s' = undo_stack s).
  { destruct (order_queue s) as [|o0 pending] eqn:Hq.
    { rewrite process_order_empty_queue in Hrun by done. discriminate. }
    destruct (process_order_cases s o0 pending Hq)
      as [(p & r & _ & _ & _ & _ & Heq)|[_ Heq]];
      rewrite Heq in Hrun; [discriminate|].
    by inversion Hrun; subst. }
  split; [done|]. unfold undo_last_action. rewrite Hstack. split.
  - by destruct (list_pop (undo_stack s)) as [[last rest]|].
  - intros history last ->. by rewrite list_pop_snoc.
Qed.

Lemma process_order_no_rider_leaves_history_witness :
  undo_stack (mkState [] [] [] ["Placed Order #1"] 2) = ["Placed Order #1"]
  ∧ fst (undo_last_action (mkState [] [] [] ["Placed Order #1"] 2))
    = fst (undo_last_action
             (mkState [] [] [mkOrder 1 "Subway" 5 9] ["Placed Order #1"] 2))
  ∧ (∀ history last, ["Placed Order #1"] = history ++ [last] →
       fst (undo_last_action (mkState [] [] [] ["Placed Order #1"] 2)) = Undoing last
       ∧ undo_stack (snd (undo_last_action (mkState [] [] [] ["Placed Order #1"] 2)))
         = history).
Proof.
  apply (process_order_no_rider_leaves_history
           (mkState [] [] [mkOrder 1 "Subway" 5 9] ["Placed Order #1"] 2)
           (mkOrder 1 "Subway" 5 9)
           (mkState [] [] [] ["Placed Order #1"] 2)).
  reflexivity.
Defined.

(** ** place_order *)

Lemma find_by_id_None id chain :
  find_by_id id chain = None ↔ id ∉ rest_id <$> chain.
Proof.
  induction chain as [|data next IH]; simpl.
  - split; [intros _; apply not_elem_of_nil | done].
  - rewrite not_elem_of_cons, <- IH.
    destruct (Z.eqb_spec (rest_id data) id) as [Heq|Hne].
    + split; [done | intros [Hid _]; congruence].
    + split; [intros H; split; [congruence | done] | by intros [_ ?]].
Qed.

Lemma find_by_id_Some id chain r :
  find_by_id id chain = Some r → r ∈ chain ∧ rest_id r = id.
Proof.
  induction chain as [|data next IH]; simpl; [done|].
  destruct (Z.eqb_spec (rest_id data) id) as [Heq|Hne].
  - intros [= ->]. split; [apply list_elem_of_here | done].
  - intros H. apply IH in H as [Hin Hid]. split; [by apply list_elem_of_further | done].
Qed.

(** C3.  A [place_order] call for an id that no restaurant of the chain
    has reports the invalid id and returns the state it was given: counter,
    queue and history are untouched. *)
Theorem place_order_unknown_restaurant rid cust_loc s :
  rid ∉ rest_id <$> my_restaurants s →
  place_order rid cust_loc s = (InvalidRestaurantID, s).
Proof.
  intros Hnot. apply find_by_id_None in Hnot.
  unfold place_order. by rewrite Hnot.
Qed.

Lemma place_order_unknown_restaurant_witness :
  place_order 104 7 seeded = (InvalidRestaurantID, seeded).
Proof.
  apply (place_order_unknown_restaurant 104 7 seeded).
  vm_compute. intros H. repeat (apply elem_of_cons in H as [H|H]; [discriminate|]).
  by apply elem_of_nil in H.
Defined.

(** ** Order identifiers *)

Lemma omap_cons_eq {A B} (f : A → option B) x l :
  omap f (x :: l) = match f x with Some y => y :: omap f l | None => omap f l end.
Proof. reflexivity. Qed.

(** One menu action either hands out the current counter value and
    advances the counter by one, or hands out nothing and leaves it. *)
Lemma step_counter c s :
  (placed_id (fst (step c s)) = None
   ∧ order_id_counter (snd (step c s)) = order_id_counter s)
  ∨ (placed_id (fst (step c s)) = Some (order_id_counter s)
     ∧ order_id_counter (snd (step c s)) = order_id_counter s + 1).
Proof.
  destruct c as [rid cl| | |]; simpl.
  - unfold place_order. destruct (find_by_id rid (my_restaurants s)); simpl; auto.
  - left. unfold process_order.
    destruct (order_queue s) as [|o q]; [done|].
    by destruct (scan_riders _ _ _ _ _) as [[[pos r]|] d].
  - by left.
  - left. unfold undo_last_action.
    by destruct (list_pop (undo_stack s)) as [[last rest]|].
Qed.

Lemma run_cons c choices s :
  run (c :: choices) s
  = (fst (step c s) :: fst (run choices (snd (step c s))),
     snd (run choices (snd (step c s)))).
Proof.
  simpl. destruct (step c s) as [out s1]; simpl.
  by destruct (run choices s1) as [outs s2].
Qed.

Lemma run_app choices1 choices2 s :
  run (choices1 ++ choices2) s
  = (fst (run choices1 s) ++ fst (run choices2 (snd (run choices1 s))),
     snd (run choices2 (snd (run choices1 s)))).
Proof.
  revert s. induction choices1 as [|c choices1 IH]; intros s.
  - simpl. by destruct (run choices2 s).
  - rewrite <- app_comm_cons, !run_cons, IH. reflexivity.
Qed.

(** The ids handed out along a run count up from the counter the run
    started with, and the counter ends past the last of them. *)
Lemma run_placed_ids choices : ∀ s,
  placed_ids (fst (run choices s))
  = seqZ (order_id_counter s) (Z.of_nat (length (placed_ids (fst (run choices s)))))
  ∧ order_id_counter (snd (run choices s))
    = order_id_counter s + Z.of_nat (length (placed_ids (fst (run choices s)))).
Proof.
  induction choices as [|c choices IH]; intros s.
  - simpl. split; [done | lia].
  - rewrite run_cons; simpl. unfold placed_ids in *; simpl.
    destruct (IH (snd (step c s))) as [IHids IHctr].
    destruct (step_counter c s) as [[Hout Hctr]|[Hout Hctr]]; rewrite Hout; simpl.
    + rewrite Hctr in IHids, IHctr. done.
    + rewrite Hctr in IHids, IHctr. split; [|lia].
      rewrite seqZ_cons by lia.
      f_equal. rewrite IHids at 1. f_equal. lia.
Qed.

Lemma seqZ_StronglySorted m n : StronglySorted Z.lt (seqZ m n).
Proof.
  destruct (Z.le_gt_cases n 0) as [Hn|Hn].
  { rewrite seqZ_nil by done. constructor. }
  rewrite <- (Z2Nat.id n) by lia. generalize (Z.to_nat n) as k. clear Hn.
  intros k. revert m. induction k as [|k IH]; intros m.
  - constructor.
  - rewrite seqZ_cons by lia. replace (Z.pred (Z.of_nat (S k))) with (Z.of_nat k) by lia.
    constructor; [apply IH|].
    apply Forall_seqZ. lia.
Qed.

(** An order found in the queue after a menu action was there before, or
    is the one this action placed. *)
Lemma step_queue c s o :
  o ∈ order_queue (snd (step c s)) →
  o ∈ order_queue s ∨ placed_id (fst (step c s)) = Some (order_id o).
Proof.
  destruct c as [rid cl| | |]; simpl.
  - unfold place_order. destruct (find_by_id rid (my_restaurants s)); simpl; auto.
    intros [Hin|Hin]%elem_of_app; [by left|].
    apply list_elem_of_singleton in Hin as ->. by right.
  - intros Hin. left. revert Hin. unfold process_order.
    destruct (order_queue s) as [|o0 q] eqn:Hq; simpl; [by rewrite Hq|].
    destruct (scan_riders _ _ _ _ _) as [[[pos r]|] d]; simpl;
      intros Hin; by apply list_elem_of_further.
  - by left.
  - intros Hin. left. revert Hin. unfold undo_last_action.
    by destruct (list_pop (undo_stack s)) as [[last rest]|].
Qed.

Lemma run_queue choices : ∀ s o,
  o ∈ order_queue (snd (run choices s)) →
  o ∈ order_queue s ∨ order_id o ∈ placed_ids (fst (run choices s)).
Proof.
  induction choices as [|c choices IH]; intros s o; [by left|].
  rewrite run_cons; simpl. intros Hin.
  unfold placed_ids in *; simpl.
  apply IH in Hin as [Hin|Hin].
  - apply step_queue in Hin as [Hin|Hin]; [by left|right].
    rewrite Hin. apply list_elem_of_here.
  - right. destruct (placed_id (fst (step c s))); [by apply list_elem_of_further | done].
Qed.

(** ** The order queue *)

(** [process_order] on a non-empty queue takes the head order, whatever
    the roster; on an empty queue it takes nothing. *)
Lemma process_order_dequeues s o pending :
  order_queue s = o :: pending →
  dequeued (OutProcess (fst (process_order s))) = Some o
  ∧ order_queue (snd (process_order s)) = pending.
Proof.
  intros Hq.
  destruct (process_order_cases s o pending Hq)
    as [(pos & r & _ & _ & _ & _ & ->)|[_ ->]]; done.
Qed.

(** Processing [n] times in a row takes the first [n] queued orders, head
    first, and leaves the rest of the queue. *)
Lemma run_process_fifo n : ∀ s,
  dequeued_orders (fst (run (replicate n ProcessNextOrder) s)) = take n (order_queue s)
  ∧ order_queue (snd (run (replicate n ProcessNextOrder) s)) = drop n (order_queue s).
Proof.
  induction n as [|n IH]; intros s.
  - simpl. by rewrite drop_0.
  - change (replicate (S n) ProcessNextOrder)
      with (ProcessNextOrder :: replicate n ProcessNextOrder).
    rewrite run_cons. unfold dequeued_orders in *. cbn [fst snd].
    assert (Hstep : step ProcessNextOrder s
                    = (OutProcess (fst (process_order s)), snd (process_order s))).
    { simpl. by destruct (process_order s). }
    rewrite Hstep, omap_cons_eq. cbn [fst snd].
    destruct (IH (snd (process_order s))) as [IHd IHq].
    destruct (order_queue s) as [|o pending] eqn:Hq.
    + rewrite process_order_empty_queue in * by done. cbn [fst snd dequeued] in *.
      rewrite Hq, ?take_nil, ?drop_nil in *. done.
    + destruct (process_order_dequeues s o pending Hq) as [Hd Hp].
      rewrite Hd, IHd, IHq, Hp. done.
Qed.

(** A batch of submissions that all name registered restaurants: the ids
    handed out count up from the counter, and the new orders join the tail
    of the queue in the order of the submissions. *)
Lemma run_place_all subs : ∀ s,
  Forall (λ sub, fst sub ∈ rest_id <$> my_restaurants s) subs →
  ∃ new,
    order_queue (snd (run (place_all subs) s)) = order_queue s ++ new
    ∧ order_id <$> new = placed_ids (fst (run (place_all subs) s))
    ∧ Forall2 (order_for (my_restaurants s)) new subs
    ∧ dequeued_orders (fst (run (place_all subs) s)) = []
    ∧ my_restaurants (snd (run (place_all subs) s)) = my_restaurants s
    ∧ my_riders (snd (run (place_all subs) s)) = my_riders s.
Proof.
  induction subs as [|[rid cl] subs IH]; intros s Hvalid.
  - exists []. simpl. rewrite app_nil_r. repeat split; constructor.
  - apply Forall_cons in Hvalid as [Hrid Hvalid]. simpl in Hrid.
    change (place_all ((rid, cl) :: subs))
      with (PlaceNewOrder rid cl :: place_all subs).
    rewrite run_cons.
    destruct (find_by_id rid (my_restaurants s)) as [r|] eqn:Hfind;
      [|by apply find_by_id_None in Hfind].
    assert (Hstep : step (PlaceNewOrder rid cl) s
              = (OutPlace (Success (order_id_counter s)),
                 mkState (my_restaurants s) (my_riders s)
                   (order_queue s
                      ++ [mkOrder (order_id_counter s) (rest_name r) (rest_location r) cl])
                   (undo_stack s ++ ["Placed Order #" +:+ pretty (order_id_counter s)])
                   (order_id_counter s + 1))).
    { simpl. unfold place_order. by rewrite Hfind. }
    rewrite Hstep. cbn [fst snd].
    set (s1 := mkState _ _ _ _ _).
    destruct (IH s1 Hvalid) as (new & Hq & Hids & Hfor & Hdeq & Hregs & Hriders).
    exists (mkOrder (order_id_counter s) (rest_name r) (rest_location r) cl :: new).
    unfold placed_ids, dequeued_orders in *.
    rewrite !omap_cons_eq. cbn [placed_id dequeued fmap list_fmap].
    rewrite Hq, Hdeq, <- Hids, Hregs, Hriders. subst s1; simpl.
    rewrite <- app_assoc. repeat split; try done.
    constructor; [|done]. exists r. done.
Qed.

(** C5.  From an empty queue, submit N orders that name registered
    restaurants and then process N times.  The N orders taken off the
    queue are the N orders submitted, in the order of submission: their
    ids are the ids handed out, in the same sequence, each carries the
    snapshot and customer location of the submission at its position, and
    the queue ends empty.  The roster plays no part in which order is
    taken, so the statement holds for every roster. *)
Theorem queue_fifo s subs :
  order_queue s = [] →
  Forall (λ sub, fst sub ∈ rest_id <$> my_restaurants s) subs →
  let choices := place_all subs ++ replicate (length subs) ProcessNextOrder in
  let outs := fst (run choices s) in
  length (dequeued_orders outs) = length subs
  ∧ order_id <$> dequeued_orders outs = placed_ids outs
  ∧ placed_ids outs = seqZ (order_id_counter s) (Z.of_nat (length subs))
  ∧ Forall2 (order_for (my_restaurants s)) (dequeued_orders outs) subs
  ∧ order_queue (snd (run choices s)) = [].
Proof.
  intros Hempty Hvalid choices outs. subst outs choices.
  rewrite run_app. cbn [fst snd].
  destruct (run_place_all subs s Hvalid) as (new & Hq & Hids & Hfor & Hdeq & _ & _).
  rewrite Hempty in Hq. simpl in Hq.
  destruct (run_process_fifo (length subs) (snd (run (place_all subs) s))) as [Hd Hrest].
  assert (Hlen : length new = length subs) by by eapply Forall2_length.
  unfold dequeued_orders, placed_ids in *.
  rewrite !omap_app, Hdeq, Hd, Hrest, Hq, <- Hlen, firstn_all, drop_all. simpl.
  assert (Hnone : omap placed_id
            (fst (run (replicate (length new) ProcessNextOrder)
                    (snd (run (place_all subs) s)))) = []).
  { generalize (snd (run (place_all subs) s)) as s1.
    generalize (length new) as n. clear.
    induction n as [|n IH]; intros s1; [done|].
    change (replicate (S n) ProcessNextOrder)
      with (ProcessNextOrder :: replicate n ProcessNextOrder).
    rewrite run_cons. cbn [fst]. rewrite omap_cons_eq, IH.
    simpl. by destruct (process_order s1). }
  rewrite Hnone, app_nil_r.
  repeat split; try done.
  destruct (run_placed_ids (place_all subs) s) as [Hseq _].
  unfold placed_ids in Hseq. rewrite Hseq at 1.
  by rewrite <- Hids, length_fmap.
Qed.

Lemma queue_fifo_witness :
  let choices := place_all [(102, 4); (101, 7); (103, 0)]
                   ++ replicate 3 ProcessNextOrder in
  let outs := fst (run choices seeded) in
  length (dequeued_orders outs) = 3%nat
  ∧ order_id <$> dequeued_orders outs = placed_ids outs
  ∧ placed_ids outs = seqZ 1 3
  ∧ Forall2 (order_for (my_restaurants seeded)) (dequeued_orders outs)
      [(102, 4); (101, 7); (103, 0)]
  ∧ order_queue (snd (run choices seeded)) = [].
Proof.
  apply (queue_fifo seeded [(102, 4); (101, 7); (103, 0)]).
  - reflexivity.
  - apply (bool_decide_unpack _). vm_compute. exact I.
Defined.

(** ** Sorting by key *)

Section ListSort.
Context {A : Type} (key : A → Z).

Lemma insert_by_perm x l : insert_by key x l ≡ₚ x :: l.
Proof.
  induction l as [|y l IH]; simpl; [done|].
  destruct (key y <? key x); [|done].
  rewrite IH. apply Permutation_swap.
Qed.

Lemma list_sort_cons x l :
  list_sort key (x :: l) = insert_by key x (list_sort key l).
Proof. reflexivity. Qed.

Lemma list_sort_perm l : list_sort key l ≡ₚ l.
Proof.
  induction l as [|x l IH]; [done|].
  by rewrite list_sort_cons, insert_by_perm, IH.
Qed.

Lemma insert_by_sorted x l :
  StronglySorted (key_le key) l → StronglySorted (key_le key) (insert_by key x l).
Proof.
  induction 1 as [|y l Hsorted IH Hall]; simpl.
  - repeat constructor.
  - destruct (Z.ltb_spec (key y) (key x)) as [Hlt|Hge].
    + constructor; [done|].
      rewrite insert_by_perm. constructor; [unfold key_le; lia | done].
    + constructor; [by constructor|].
      constructor; [done|].
      eapply Forall_impl; [exact Hall|]. unfold key_le. intros z Hz. lia.
Qed.

Lemma list_sort_sorted l : StronglySorted (key_le key) (list_sort key l).
Proof.
  induction l as [|x l IH]; [constructor|].
  rewrite list_sort_cons. by apply insert_by_sorted.
Qed.

(** Inserting [x] only moves it past elements with a smaller key, so the
    elements of any one key keep their order, [x] in front. *)
Lemma insert_by_filter k x l :
  filter (λ a, key a = k) (insert_by key x l) = filter (λ a, key a = k) (x :: l).
Proof.
  induction l as [|y l IH]; simpl; [done|].
  destruct (Z.ltb_spec (key y) (key x)) as [Hlt|Hge]; [|done].
  rewrite filter_cons, IH, !filter_cons.
  repeat case_decide; try done. lia.
Qed.

Lemma list_sort_filter k l :
  filter (λ a, key a = k) (list_sort key l) = filter (λ a, key a = k) l.
Proof.
  induction l as [|x l IH]; [done|].
  by rewrite list_sort_cons, insert_by_filter, !filter_cons, IH.
Qed.

(** Sorting a sorted list changes nothing. *)
Lemma list_sort_of_sorted l : StronglySorted (key_le key) l → list_sort key l = l.
Proof.
  induction 1 as [|x l Hsorted IH Hall]; [done|].
  rewrite list_sort_cons, IH.
  destruct Hall as [|y l' Hxy _]; simpl; [done|].
  unfold key_le in Hxy.
  destruct (Z.ltb_spec (key y) (key x)); [lia | done].
Qed.

Lemma list_sort_idemp l : list_sort key (list_sort key l) = list_sort key l.
Proof. apply list_sort_of_sorted, list_sort_sorted. Qed.

(** Two sorted lists that agree on the elements of every key, in order,
    are the same list: the result of a stable sort is determined. *)
Lemma sorted_stable_unique l1 : ∀ l2,
  StronglySorted (key_le key) l1 → StronglySorted (key_le key) l2 →
  (∀ k, filter (λ a, key a = k) l1 = filter (λ a, key a = k) l2) →
  l1 = l2.
Proof.
  induction l1 as [|a l1 IH]; intros l2 Hs1 Hs2 Heq.
  - destruct l2 as [|b l2]; [done|].
    specialize (Heq (key b)). rewrite filter_cons in Heq.
    by rewrite decide_True in Heq.
  - destruct l2 as [|b l2].
    { specialize (Heq (key a)). rewrite filter_cons in Heq.
      by rewrite decide_True in Heq. }
    apply StronglySorted_inv in Hs1 as [Hs1 Ha].
    apply StronglySorted_inv in Hs2 as [Hs2 Hb].
    assert (Hab : key a ≤ key b).
    { assert (Hin : b ∈ filter (λ x, key x = key b) (a :: l1)).
      { rewrite Heq, filter_cons, decide_True by done. apply list_elem_of_here. }
      apply list_elem_of_filter in Hin as [_ Hin].
      apply elem_of_cons in Hin as [->|Hin]; [lia|].
      rewrite Forall_forall in Ha. apply (Ha b Hin). }
    assert (Hba : key b ≤ key a).
    { assert (Hin : a ∈ filter (λ x, key x = key a) (b :: l2)).
      { rewrite <- Heq, filter_cons, decide_True by done. apply list_elem_of_here. }
      apply list_elem_of_filter in Hin as [_ Hin].
      apply elem_of_cons in Hin as [->|Hin]; [lia|].
      rewrite Forall_forall in Hb. apply (Hb a Hin). }
    assert (Hkey : key a = key b) by lia.
    pose proof (Heq (key a)) as Hhead.
    rewrite !filter_cons, decide_True in Hhead by done.
    rewrite decide_True in Hhead by done.
    injection Hhead as -> Htail.
    f_equal. apply IH; [done..|].
    intros k. specialize (Heq k). rewrite !filter_cons in Heq.
    case_decide; [by injection Heq | done].
Qed.

(** Any function that returns a sorted list keeping the elements of every
    key in their input order computes [list_sort]. *)
Lemma list_sort_unique (sort : list A → list A) l :
  StronglySorted (key_le key) (sort l) →
  (∀ k, filter (λ a, key a = k) (sort l) = filter (λ a, key a = k) l) →
  sort l = list_sort key l.
Proof.
  intros Hsorted Hstable. apply sorted_stable_unique; [done|apply list_sort_sorted|].
  intros k. by rewrite Hstable, list_sort_filter.
Qed.
End ListSort.

(** ** show_riders_sorted *)

(** C7.  The view [show_riders_sorted] returns holds the riders of the
    roster, in ascending order of [deliveries_done]; for every workload
    the riders with that workload appear in the order they had in the
    roster; and calling it again straight away returns the same view and
    the same state. *)
Theorem show_riders_sorted_stable s :
  fst (show_riders_sorted s) ≡ₚ my_riders s
  ∧ StronglySorted (key_le deliveries_done) (fst (show_riders_sorted s))
  ∧ (∀ k, filter (λ r, deliveries_done r = k) (fst (show_riders_sorted s))
          = filter (λ r, deliveries_done r = k) (my_riders s))
  ∧ show_riders_sorted (snd (show_riders_sorted s)) = show_riders_sorted s.
Proof.
  unfold show_riders_sorted; simpl.
  split; [apply list_sort_perm|].
  split; [apply list_sort_sorted|].
  split; [intros k; apply list_sort_filter|].
  by rewrite list_sort_idemp.
Qed.

(** The seeded roster: Bilal, with two deliveries, goes last; Ali and
    Hamza, both with none, keep their order. *)
Example show_riders_sorted_seeded :
  fst (show_riders_sorted seeded)
  = [mkRider 201 "Ali" 1 0; mkRider 203 "Hamza" 3 0; mkRider 202 "Bilal" 6 2].
Proof. reflexivity. Qed.

(** Apart from [show_riders_sorted], no menu action moves a rider to
    another position of the roster. *)
Lemma step_keeps_positions c s :
  c ≠ ViewRiders →
  rider_id <$> my_riders (snd (step c s)) = rider_id <$> my_riders s.
Proof.
  intros Hc. destruct c as [rid cl| | |]; simpl; [| |done|].
  - unfold place_order. by destruct (find_by_id rid (my_restaurants s)).
  - destruct (order_queue s) as [|o pending] eqn:Hq.
    { by rewrite process_order_empty_queue. }
    destruct (process_order_cases s o pending Hq)
      as [(pos & r & Hpos & _ & _ & _ & ->)|[_ ->]]; simpl; [|done].
    rewrite list_fmap_insert. simpl. apply list_insert_id.
    by rewrite list_lookup_fmap, Hpos.
  - unfold undo_last_action.
    by destruct (list_pop (undo_stack s)) as [[last rest]|].
Qed.

(** Apart from [show_riders_sorted], no menu action changes who stands at
    which position of the roster. *)
Lemma step_keeps_identities c s :
  c ≠ ViewRiders →
  identity <$> my_riders (snd (step c s)) = identity <$> my_riders s.
Proof.
  intros Hc. destruct c as [rid cl| | |]; simpl; [| |done|].
  - unfold place_order. by destruct (find_by_id rid (my_restaurants s)).
  - destruct (order_queue s) as [|o pending] eqn:Hq.
    { by rewrite process_order_empty_queue. }
    destruct (process_order_cases s o pending Hq)
      as [(pos & r & Hpos & _ & _ & _ & ->)|[_ ->]]; simpl; [|done].
    rewrite list_fmap_insert. apply list_insert_id.
    by rewrite list_lookup_fmap, Hpos.
  - unfold undo_last_action.
    by destruct (list_pop (undo_stack s)) as [[last rest]|].
Qed.

Lemma run_keeps_identities choices : ∀ s,
  ViewRiders ∉ choices →
  identity <$> my_riders (snd (run choices s)) = identity <$> my_riders s.
Proof.
  induction choices as [|c choices IH]; intros s Hno; [done|].
  apply not_elem_of_cons in Hno as [Hc Hno].
  rewrite run_cons. cbn [snd]. rewrite IH by done.
  by apply step_keeps_identities.
Qed.

(** C9.  [show_riders_sorted] leaves the sorted view in the roster itself,
    the other globals untouched, and the roster stays in that order for
    good: after any further menu actions other than a new view, the same
    riders stand at the same positions as in the view.  So every order
    processed from then on is assigned by scanning the roster in the order
    of the view: the rider taken is the earliest one, in that order, among
    those at the least distance, and the assignment itself moves no rider
    to another position.  This is not the choice the registration order
    gives: with Ali (one delivery) and Hamza (none) both at distance 1, the
    order goes to Ali when the roster was not viewed and to Hamza when it
    was. *)
Theorem show_riders_sorted_reorders_roster s :
  let s' := snd (show_riders_sorted s) in
  (my_riders s' = fst (show_riders_sorted s)
   ∧ my_riders s' ≡ₚ my_riders s
   ∧ StronglySorted (key_le deliveries_done) (my_riders s')
   ∧ my_restaurants s' = my_restaurants s
   ∧ order_queue s' = order_queue s
   ∧ undo_stack s' = undo_stack s
   ∧ order_id_counter s' = order_id_counter s)
  ∧ (∀ choices, ViewRiders ∉ choices →
       let later := snd (run choices s') in
       identity <$> my_riders later = identity <$> fst (show_riders_sorted s)
       ∧ ∀ o pos r' dr dc total s'',
           process_order later = (Assigned o pos r' dr dc total, s'') →
           ∃ r, my_riders later !! pos = Some r
                ∧ identity <$> (fst (show_riders_sorted s) !! pos) = Some (identity r)
                ∧ r' = delivered o r
                ∧ dr = dist_to (restaurant_loc o) r
                ∧ (∀ j rj, my_riders later !! j = Some rj →
                     dr ≤ dist_to (restaurant_loc o) rj)
                ∧ (∀ j rj, (j < pos)%nat → my_riders later !! j = Some rj →
                     dr < dist_to (restaurant_loc o) rj)
                ∧ identity <$> my_riders s'' = identity <$> fst (show_riders_sorted s))
  ∧ (let before := [PlaceNewOrder 101 1; ProcessNextOrder; PlaceNewOrder 101 7] in
     last (fst (run (before ++ [ProcessNextOrder]) seeded))
     = Some (OutProcess (Assigned (mkOrder 2 "Burger King" 2 7) 0
                           (mkRider 201 "Ali" 7 2) 1 5 6))
     ∧ last (fst (run (before ++ [ViewRiders; ProcessNextOrder]) seeded))
       = Some (OutProcess (Assigned (mkOrder 2 "Burger King" 2 7) 0
                             (mkRider 203 "Hamza" 7 1) 1 5 6))).
Proof.
  intros s'. subst s'. split; [|split].
  - unfold show_riders_sorted; simpl.
    split; [done|]. split; [apply list_sort_perm|].
    split; [apply list_sort_sorted|]. done.
  - intros choices Hno later.
    assert (Hid : identity <$> my_riders later = identity <$> fst (show_riders_sorted s)).
    { subst later. by rewrite run_keeps_identities. }
    split; [exact Hid|].
    intros o pos r' dr dc total s'' Hrun.
    destruct (order_queue later) as [|o0 pending] eqn:Hq.
    { rewrite process_order_empty_queue in Hrun by done. discriminate. }
    destruct (process_order_cases _ o0 pending Hq)
      as [(p & r & Hp & _ & Hmin & Hfirst & Heq)|[_ Heq]];
      rewrite Heq in Hrun; [|discriminate].
    inversion Hrun; subst o pos r' dr dc total s''; clear Hrun.
    exists r. split; [done|]. split.
    { by rewrite <- list_lookup_fmap, <- Hid, list_lookup_fmap, Hp. }
    split; [done|]. split; [done|]. split; [done|]. split; [done|].
    rewrite <- Hid. cbn [my_riders]. rewrite list_fmap_insert. apply list_insert_id.
    by rewrite list_lookup_fmap, Hp.
  - vm_compute. done.
Qed.

(** A roster viewed once and two orders later: Bilal takes the first, and
    the second, with all three riders at distance 1, goes to Hamza, who is
    first in the order of the view. *)
Lemma show_riders_sorted_reorders_roster_witness :
  let s := snd (run [PlaceNewOrder 101 1; ProcessNextOrder] seeded) in
  let later := snd (run [PlaceNewOrder 102 3; ProcessNextOrder; PlaceNewOrder 101 7]
                      (snd (show_riders_sorted s))) in
  identity <$> my_riders later = [(203, "Hamza"); (201, "Ali"); (202, "Bilal")]
  ∧ ∃ r, my_riders later !! 0%nat = Some r
         ∧ identity <$> (fst (show_riders_sorted s) !! 0%nat) = Some (identity r)
         ∧ mkRider 203 "Hamza" 7 1 = delivered (mkOrder 3 "Burger King" 2 7) r
         ∧ 1 = dist_to 2 r.
Proof.
  intros s later.
  destruct (show_riders_sorted_reorders_roster s) as (_ & Hlater & _).
  assert (Hno : ViewRiders ∉ [PlaceNewOrder 102 3; ProcessNextOrder; PlaceNewOrder 101 7]).
  { intros H. repeat (apply elem_of_cons in H as [H|H]; [discriminate|]).
    by apply elem_of_nil in H. }
  destruct (Hlater _ Hno) as [Hid Hdispatch].
  split; [exact Hid|].
  destruct (Hdispatch (mkOrder 3 "Burger King" 2 7) 0%nat (mkRider 203 "Hamza" 7 1)
              1 5 6 (snd (process_order later)) eq_refl)
    as (r & Hr & Hsame & Hmoved & Hdist & _).
  exists r. repeat split; assumption.
Defined.


(** * Further properties of the code *)

(** ** The restaurant chain *)

(** X1.  [add_restaurant] links the new restaurant after the last node:
    the chain keeps all its restaurants in their order and gains the new
    one at the end. *)
Theorem add_restaurant_appends id name rating loc chain :
  add_restaurant id name rating loc chain = chain ++ [mkRestaurant id name rating loc].
Proof.
  induction chain as [|node next IH]; simpl; [done|]. by rewrite IH.
Qed.

Lemma find_by_id_app id chain1 chain2 :
  find_by_id id (chain1 ++ chain2)
  = match find_by_id id chain1 with
    | Some r => Some r
    | None => find_by_id id chain2
    end.
Proof.
  induction chain1 as [|data next IH]; simpl; [done|].
  by destruct (rest_id data =? id).
Qed.

(** X2.  Looking up after an insertion: an id the chain already answered
    keeps its answer, also when the new restaurant carries the same id
    (the newcomer is then never found); otherwise the new restaurant is
    found under its own id and under no other. *)
Theorem find_by_id_add_restaurant id' id name rating loc chain :
  find_by_id id' (add_restaurant id name rating loc chain)
  = match find_by_id id' chain with
    | Some r => Some r
    | None => if id =? id' then Some (mkRestaurant id name rating loc) else None
    end.
Proof.
  induction chain as [|data next IH]; simpl.
  - by destruct (id =? id').
  - by destruct (rest_id data =? id').
Qed.

(** X3.  [find_by_id] answers with a restaurant exactly when that
    restaurant carries the id and no restaurant before it in the chain
    does: the first match wins. *)
Theorem find_by_id_first_match id chain r :
  find_by_id id chain = Some r
  ↔ ∃ before behind,
      chain = before ++ r :: behind
      ∧ rest_id r = id
      ∧ id ∉ rest_id <$> before.
Proof.
  split.
  - induction chain as [|data next IH]; simpl; [done|].
    destruct (Z.eqb_spec (rest_id data) id) as [Heq|Hne].
    + intros [= ->]. exists [], next. repeat split; [done|]. apply not_elem_of_nil.
    + intros Hfind. destruct (IH Hfind) as (before & behind & -> & Hid & Hnot).
      exists (data :: before), behind. repeat split; [done|].
      rewrite fmap_cons. apply not_elem_of_cons. split; [congruence | done].
  - intros (before & behind & -> & Hid & Hnot).
    apply find_by_id_None in Hnot.
    rewrite find_by_id_app, Hnot. simpl.
    by destruct (Z.eqb_spec (rest_id r) id).
Qed.

(** X4.  In a chain whose ids are all different, looking up the id of any
    restaurant of the chain returns that very restaurant. *)
Theorem find_by_id_registered chain r :
  NoDup (rest_id <$> chain) → r ∈ chain →
  find_by_id (rest_id r) chain = Some r.
Proof.
  induction chain as [|data next IH]; intros Hnodup Hin.
  - by apply elem_of_nil in Hin.
  - rewrite fmap_cons in Hnodup. apply NoDup_cons in Hnodup as [Hfresh Hnodup].
    simpl. apply elem_of_cons in Hin as [->|Hin].
    + by rewrite Z.eqb_refl.
    + destruct (Z.eqb_spec (rest_id data) (rest_id r)) as [Heq|Hne]; [|by apply IH].
      exfalso. apply Hfresh. rewrite Heq. by apply list_elem_of_fmap_2.
Qed.

Lemma find_by_id_registered_witness :
  find_by_id 102 (my_restaurants seeded) = Some (mkRestaurant 102 "Pizza Hut" 4.2 8).
Proof.
  apply (find_by_id_registered (my_restaurants seeded) (mkRestaurant 102 "Pizza Hut" 4.2 8)).
  - apply (bool_decide_unpack _). vm_compute. exact I.
  - vm_compute. apply list_elem_of_further, list_elem_of_here.
Defined.

(** ** place_order, continued *)

Lemma place_order_found rid cust_loc s r :
  find_by_id rid (my_restaurants s) = Some r →
  place_order rid cust_loc s
  = (Success (order_id_counter s),
     mkState (my_restaurants s) (my_riders s)
       (order_queue s
          ++ [mkOrder (order_id_counter s) (rest_name r) (rest_location r) cust_loc])
       (undo_stack s ++ ["Placed Order #" +:+ pretty (order_id_counter s)])
       (order_id_counter s + 1)).
Proof. intros Hfind. unfold place_order. by rewrite Hfind. Qed.

Lemma find_by_id_is_Some rid chain :
  rid ∈ rest_id <$> chain → ∃ r, find_by_id rid chain = Some r.
Proof.
  intros Hin. destruct (find_by_id rid chain) as [r|] eqn:Hfind; [by exists r|].
  by apply find_by_id_None in Hfind.
Qed.

(** X5.  A [place_order] call for an id that some restaurant carries
    succeeds with the current counter value as order id.  The new order,
    holding the name and location of the first restaurant with that id and
    the customer location, joins the tail of the queue, one entry naming
    the order joins the history, the counter moves on by one, and the
    restaurants and riders stay as they were. *)
Theorem place_order_known_restaurant rid cust_loc s :
  rid ∈ rest_id <$> my_restaurants s →
  ∃ r, find_by_id rid (my_restaurants s) = Some r
       ∧ r ∈ my_restaurants s
       ∧ rest_id r = rid
       ∧ place_order rid cust_loc s
         = (Success (order_id_counter s),
            mkState (my_restaurants s) (my_riders s)
              (order_queue s
                 ++ [mkOrder (order_id_counter s) (rest_name r) (rest_location r) cust_loc])
              (undo_stack s ++ ["Placed Order #" +:+ pretty (order_id_counter s)])
              (order_id_counter s + 1)).
Proof.
  intros Hin. destruct (find_by_id_is_Some _ _ Hin) as [r Hfind].
  exists r. destruct (find_by_id_Some _ _ _ Hfind) as [Hr Hid].
  repeat split; try done. by apply place_order_found.
Qed.

Lemma place_order_known_restaurant_witness :
  ∃ r, find_by_id 103 (my_restaurants seeded) = Some r
       ∧ r ∈ my_restaurants seeded
       ∧ rest_id r = 103
       ∧ place_order 103 9 seeded
         = (Success (order_id_counter seeded),
            mkState (my_restaurants seeded) (my_riders seeded)
              (order_queue seeded
                 ++ [mkOrder (order_id_counter seeded) (rest_name r) (rest_location r) 9])
              (undo_stack seeded ++ ["Placed Order #" +:+ pretty (order_id_counter seeded)])
              (order_id_counter seeded + 1)).
Proof.
  apply (place_order_known_restaurant 103 9 seeded).
  apply (bool_decide_unpack _). vm_compute. exact I.
Defined.

(** X6.  Undoing right after a successful [place_order] takes back the
    history entry of that order and nothing else: the order stays at the
    tail of the queue and its id stays spent. *)
Theorem undo_after_place_order rid cust_loc s :
  rid ∈ rest_id <$> my_restaurants s →
  let s1 := snd (place_order rid cust_loc s) in
  fst (undo_last_action s1) = Undoing ("Placed Order #" +:+ pretty (order_id_counter s))
  ∧ undo_stack (snd (undo_last_action s1)) = undo_stack s
  ∧ order_queue (snd (undo_last_action s1)) = order_queue s1
  ∧ length (order_queue s1) = S (length (order_queue s))
  ∧ order_id <$> last (order_queue s1) = Some (order_id_counter s)
  ∧ order_id_counter (snd (undo_last_action s1)) = order_id_counter s + 1.
Proof.
  intros Hin s1. subst s1.
  destruct (find_by_id_is_Some _ _ Hin) as [r Hfind].
  rewrite (place_order_found _ _ _ _ Hfind).
  unfold undo_last_action; simpl. rewrite list_pop_snoc; simpl.
  rewrite length_app, last_snoc; simpl. repeat split; lia.
Qed.

Lemma undo_after_place_order_witness :
  let s1 := snd (place_order 101 7 seeded) in
  fst (undo_last_action s1) = Undoing ("Placed Order #" +:+ pretty (order_id_counter seeded))
  ∧ undo_stack (snd (undo_last_action s1)) = undo_stack seeded
  ∧ order_queue (snd (undo_last_action s1)) = order_queue s1
  ∧ length (order_queue s1) = S (length (order_queue seeded))
  ∧ order_id <$> last (order_queue s1) = Some (order_id_counter seeded)
  ∧ order_id_counter (snd (undo_last_action s1)) = order_id_counter seeded + 1.
Proof.
  apply (undo_after_place_order 101 7 seeded).
  apply (bool_decide_unpack _). vm_compute. exact I.
Defined.

(** ** The action history *)

Lemma list_pop_Some {A} (l : list A) x front :
  list_pop l = Some (x, front) → l = front ++ [x].
Proof.
  destruct l as [|y l _] using rev_ind; [done|].
  rewrite list_pop_snoc. by intros [= -> ->].
Qed.

Lemma omap_cons_app {A B} (f : A → option B) x l :
  omap f (x :: l) = option_list (f x) ++ omap f l.
Proof. rewrite omap_cons_eq. by destruct (f x). Qed.

Lemma step_undo s :
  step UndoLastAction s = (OutUndo (fst (undo_last_action s)), snd (undo_last_action s)).
Proof. simpl. by destruct (undo_last_action s). Qed.

(** X7.  Undoing [n] times in a row returns the [n] most recent history
    entries, the latest first, then reports that nothing is left; the
    history keeps its older entries in place, and the restaurants, riders,
    queue and counter are not touched. *)
Theorem undo_lifo n : ∀ s,
  let outs := fst (run (replicate n UndoLastAction) s) in
  let s' := snd (run (replicate n UndoLastAction) s) in
  omap undone outs = take n (reverse (undo_stack s))
  ∧ undo_stack s' = take (length (undo_stack s) - n) (undo_stack s)
  ∧ my_restaurants s' = my_restaurants s
  ∧ my_riders s' = my_riders s
  ∧ order_queue s' = order_queue s
  ∧ order_id_counter s' = order_id_counter s.
Proof.
  induction n as [|n IH]; intros s; cbn zeta.
  - simpl. rewrite Nat.sub_0_r, firstn_all. done.
  - change (replicate (S n) UndoLastAction)
      with (UndoLastAction :: replicate n UndoLastAction).
    rewrite run_cons, step_undo. cbn [fst snd]. rewrite omap_cons_eq.
    specialize (IH (snd (undo_last_action s))). cbn zeta in IH.
    destruct IH as (IHouts & IHstack & IHregs & IHriders & IHqueue & IHctr).
    rewrite IHouts, IHstack, IHregs, IHriders, IHqueue, IHctr.
    unfold undo_last_action.
    destruct (list_pop (undo_stack s)) as [[last front]|] eqn:Hpop; cbn [fst snd undone].
    + apply list_pop_Some in Hpop. rewrite Hpop. simpl.
      rewrite reverse_snoc, length_app. simpl.
      replace (length front + 1 - S n)%nat with (length front - n)%nat by lia.
      rewrite take_app_le by lia. done.
    + apply list_pop_None in Hpop. rewrite Hpop. simpl.
      change (reverse (@nil string)) with (@nil string). by rewrite take_nil.
Qed.

(** What one action other than an undo adds to the history. *)
Lemma step_history c s :
  c ≠ UndoLastAction →
  undo_stack (snd (step c s))
  = undo_stack s ++ option_list (description (fst (step c s))).
Proof.
  intros Hc. destruct c as [rid cl| | |]; [| | |done].
  - simpl. unfold place_order.
    destruct (find_by_id rid (my_restaurants s)); simpl; [done|by rewrite app_nil_r].
  - simpl. destruct (order_queue s) as [|o pending] eqn:Hq.
    { rewrite process_order_empty_queue by done. simpl. by rewrite app_nil_r. }
    destruct (process_order_cases s o pending Hq)
      as [(pos & r & _ & _ & _ & _ & ->)|[_ ->]]; simpl; [done|by rewrite app_nil_r].
  - simpl. by rewrite app_nil_r.
Qed.

(** Along a run without undo, the history grows by exactly one entry for
    each order placed and each order assigned, in the order of the
    actions, and by nothing for any other outcome. *)
Lemma run_history choices : ∀ s,
  UndoLastAction ∉ choices →
  undo_stack (snd (run choices s))
  = undo_stack s ++ omap description (fst (run choices s)).
Proof.
  induction choices as [|c choices IH]; intros s Hno.
  - simpl. by rewrite app_nil_r.
  - apply not_elem_of_cons in Hno as [Hc Hno].
    rewrite run_cons. cbn [fst snd]. rewrite omap_cons_eq.
    rewrite IH by done. rewrite step_history by done.
    rewrite <- app_assoc. f_equal.
    by destruct (description (fst (step c s))).
Qed.

(** ** The order queue, continued *)

(** One action: the order it took off the queue, followed by the queue it
    leaves, is the queue it found followed by the order it placed. *)
Lemma step_queue_ids c s :
  (order_id <$> option_list (dequeued (fst (step c s))))
    ++ (order_id <$> order_queue (snd (step c s)))
  = (order_id <$> order_queue s) ++ option_list (placed_id (fst (step c s))).
Proof.
  destruct c as [rid cl| | |].
  - simpl. unfold place_order.
    destruct (find_by_id rid (my_restaurants s)); simpl.
    + by rewrite fmap_app.
    + by rewrite app_nil_r.
  - simpl. destruct (order_queue s) as [|o pending] eqn:Hq.
    { rewrite process_order_empty_queue by done. simpl. by rewrite Hq. }
    destruct (process_order_cases s o pending Hq)
      as [(pos & r & _ & _ & _ & _ & ->)|[_ ->]]; simpl; by rewrite app_nil_r.
  - simpl. by rewrite app_nil_r.
  - rewrite step_undo. simpl. rewrite app_nil_r. unfold undo_last_action.
    by destruct (list_pop (undo_stack s)) as [[last front]|].
Qed.

(** Along any run: the ids of the orders taken off the queue, followed by
    the ids still queued, are the ids queued at the start followed by the
    ids handed out. *)
Lemma run_queue_ids choices : ∀ s,
  (order_id <$> dequeued_orders (fst (run choices s)))
    ++ (order_id <$> order_queue (snd (run choices s)))
  = (order_id <$> order_queue s) ++ placed_ids (fst (run choices s)).
Proof.
  induction choices as [|c choices IH]; intros s.
  - simpl. by rewrite app_nil_r.
  - rewrite run_cons. unfold dequeued_orders, placed_ids in *.
    cbn [fst snd]. rewrite !omap_cons_app, fmap_app, <- app_assoc.
    rewrite IH, !app_assoc. f_equal. apply step_queue_ids.
Qed.

Lemma seqZ_app_inv (l1 l2 : list Z) m n :
  l1 ++ l2 = seqZ m n →
  l1 = seqZ m (Z.of_nat (length l1))
  ∧ l2 = seqZ (m + Z.of_nat (length l1)) (Z.of_nat (length l2)).
Proof.
  intros Heq.
  assert (Hlen : Z.to_nat n = (length l1 + length l2)%nat).
  { by rewrite <- (length_seqZ m n), <- Heq, length_app. }
  destruct (Z.le_gt_cases n 0) as [Hn|Hn].
  { rewrite seqZ_nil in Heq by done. apply app_eq_nil in Heq as [-> ->]. done. }
  replace n with (Z.of_nat (length l1) + Z.of_nat (length l2)) in Heq by lia.
  rewrite seqZ_app in Heq by lia.
  apply app_inj_1 in Heq; [done|].
  rewrite length_seqZ. lia.
Qed.

(** X9.  Start the engine over any registry and roster and run any
    sequence of menu actions, in any interleaving.  The orders taken off
    the queue carry the ids 1, 2, ..., m in this order, and the orders
    still waiting carry the ids m + 1, ..., k up to the last id handed out:
    the j-th order processed is always order number j, none is skipped and
    none leaves the queue twice. *)
Theorem orders_processed_in_id_order chain riders choices :
  let outs := fst (run choices (engine chain riders)) in
  let s' := snd (run choices (engine chain riders)) in
  let m := Z.of_nat (length (dequeued_orders outs)) in
  order_id <$> dequeued_orders outs = seqZ 1 m
  ∧ order_id <$> order_queue s' = seqZ (1 + m) (Z.of_nat (length (order_queue s')))
  ∧ 1 + m + Z.of_nat (length (order_queue s')) = order_id_counter s'.
Proof.
  intros outs s' m. subst outs s' m.
  pose proof (run_queue_ids choices (engine chain riders)) as Hq.
  destruct (run_placed_ids choices (engine chain riders)) as [Hids Hctr].
  simpl in Hq, Hids, Hctr.
  pose proof (f_equal length Hq) as Hlen.
  rewrite !length_app, !length_fmap in Hlen.
  rewrite Hids in Hq.
  apply seqZ_app_inv in Hq as [Hdone Hwait].
  rewrite !length_fmap in Hdone. rewrite !length_fmap in Hwait.
  split; [done|]. split; [done|].
  rewrite Hctr. lia.
Qed.

(** ** process_order, continued *)

(** X10.  [process_order] reports that no orders are pending exactly when
    the queue is empty, and then returns the state untouched: no rider
    moves and no history entry is written. *)
Theorem process_order_no_orders_pending s :
  (fst (process_order s) = NoOrdersPending ↔ order_queue s = [])
  ∧ (fst (process_order s) = NoOrdersPending → snd (process_order s) = s).
Proof.
  destruct (order_queue s) as [|o pending] eqn:Hq.
  - rewrite process_order_empty_queue by done. done.
  - destruct (process_order_cases s o pending Hq)
      as [(pos & r & _ & _ & _ & _ & ->)|[_ ->]]; simpl; split; done.
Qed.

(** X11.  With an order waiting, [process_order] reports that no rider was
    found exactly when every rider of the roster is 1000 or more away from
    the restaurant (an empty roster included).  The order is then taken off
    the queue and everything else stays as it was. *)
Theorem process_order_no_riders_found s o pending :
  order_queue s = o :: pending →
  (fst (process_order s) = NoRidersFound o
   ↔ Forall (λ r, 1000 ≤ dist_to (restaurant_loc o) r) (my_riders s))
  ∧ (fst (process_order s) = NoRidersFound o →
     snd (process_order s)
     = mkState (my_restaurants s) (my_riders s) pending (undo_stack s)
         (order_id_counter s)).
Proof.
  intros Hq.
  destruct (process_order_cases s o pending Hq)
    as [(pos & r & Hpos & Hlt & _ & _ & ->)|[Hall ->]]; simpl.
  - split; [split|]; try done.
    intros Hall. rewrite Forall_lookup in Hall.
    specialize (Hall pos r Hpos). simpl in Hall. lia.
  - done.
Qed.

Lemma process_order_no_riders_found_witness :
  (fst (process_order (mkState [] [] [mkOrder 1 "Subway" 5 9] [] 2))
   = NoRidersFound (mkOrder 1 "Subway" 5 9)
   ↔ Forall (λ r, 1000 ≤ dist_to 5 r) [])
  ∧ (fst (process_order (mkState [] [] [mkOrder 1 "Subway" 5 9] [] 2))
     = NoRidersFound (mkOrder 1 "Subway" 5 9) →
     snd (process_order (mkState [] [] [mkOrder 1 "Subway" 5 9] [] 2))
     = mkState [] [] [] [] 2).
Proof.
  apply (process_order_no_riders_found
           (mkState [] [] [mkOrder 1 "Subway" 5 9] [] 2) (mkOrder 1 "Subway" 5 9) []).
  reflexivity.
Defined.

(** X12.  Every assignment [process_order] reports has a distance to the
    restaurant from 0 up to 999, a distance to the customer that is not
    negative, and a total that is their sum and so at least each of
    them. *)
Theorem process_order_distance_bounds s o pos r' dr dc total s' :
  process_order s = (Assigned o pos r' dr dc total, s') →
  0 ≤ dr < 1000 ∧ 0 ≤ dc ∧ total = dr + dc ∧ dr ≤ total ∧ dc ≤ total.
Proof.
  intros Hrun.
  destruct (order_queue s) as [|o0 pending] eqn:Hq.
  { rewrite process_order_empty_queue in Hrun by done. discriminate. }
  destruct (process_order_cases s o0 pending Hq)
    as [(p & r & _ & Hlt & _ & _ & Heq)|[_ Heq]];
    rewrite Heq in Hrun; [|discriminate].
  inversion Hrun; subst; clear Hrun.
  unfold dist_to in *. lia.
Qed.

Lemma process_order_distance_bounds_witness :
  0 ≤ 1 < 1000 ∧ 0 ≤ 5 ∧ 6 = 1 + 5 ∧ 1 ≤ 6 ∧ 5 ≤ 6.
Proof.
  apply (process_order_distance_bounds (snd (place_order 101 7 seeded))
           (mkOrder 1 "Burger King" 2 7) 0 (mkRider 201 "Ali" 7 1) 1 5 6
           (snd (process_order (snd (place_order 101 7 seeded))))).
  reflexivity.
Defined.

(** ** The roster along a run *)

Lemma total_deliveries_cons r riders :
  total_deliveries (r :: riders) = deliveries_done r + total_deliveries riders.
Proof. reflexivity. Qed.

Lemma total_deliveries_perm riders1 riders2 :
  riders1 ≡ₚ riders2 → total_deliveries riders1 = total_deliveries riders2.
Proof.
  induction 1 as [|r l1 l2 _ IH|r1 r2 l|l1 l2 l3 _ IH1 _ IH2];
    rewrite ?total_deliveries_cons; lia.
Qed.

Lemma total_deliveries_insert riders : ∀ pos r r',
  riders !! pos = Some r →
  total_deliveries (<[pos := r']> riders)
  = total_deliveries riders + deliveries_done r' - deliveries_done r.
Proof.
  induction riders as [|r0 riders IH]; intros [|pos] r r' Hpos; try done.
  - inversion Hpos; subst.
    change (<[0%nat := r']> (r :: riders)) with (r' :: riders).
    rewrite !total_deliveries_cons. lia.
  - change (<[S pos := r']> (r0 :: riders)) with (r0 :: <[pos := r']> riders).
    rewrite !total_deliveries_cons, (IH pos r r' Hpos). lia.
Qed.

Lemma step_total_deliveries c s :
  total_deliveries (my_riders (snd (step c s)))
  = total_deliveries (my_riders s)
    + Z.of_nat (length (option_list (assigned (fst (step c s))))).
Proof.
  destruct c as [rid cl| | |].
  - simpl. unfold place_order.
    destruct (find_by_id rid (my_restaurants s)); simpl; lia.
  - simpl. destruct (order_queue s) as [|o pending] eqn:Hq.
    { rewrite process_order_empty_queue by done. simpl. lia. }
    destruct (process_order_cases s o pending Hq)
      as [(pos & r & Hpos & _ & _ & _ & ->)|[_ ->]]; simpl; [|lia].
    rewrite (total_deliveries_insert _ _ _ _ Hpos). simpl. lia.
  - simpl. rewrite (total_deliveries_perm _ _ (list_sort_perm deliveries_done _)). lia.
  - rewrite step_undo. simpl. unfold undo_last_action.
    destruct (list_pop (undo_stack s)) as [[last front]|]; simpl; lia.
Qed.

(** X13.  Along any run of menu actions, the deliveries done by the whole
    roster grow by exactly one for each assignment reported: no other
    action changes a delivery count, and no count ever goes down in
    total. *)
Theorem deliveries_count_assignments choices : ∀ s,
  total_deliveries (my_riders (snd (run choices s)))
  = total_deliveries (my_riders s)
    + Z.of_nat (length (omap assigned (fst (run choices s)))).
Proof.
  induction choices as [|c choices IH]; intros s.
  - simpl. lia.
  - rewrite run_cons. cbn [fst snd].
    rewrite omap_cons_app, length_app, IH, step_total_deliveries. lia.
Qed.

(** The id and the name of a rider. *)
Lemma step_roster c s :
  my_restaurants (snd (step c s)) = my_restaurants s
  ∧ (λ r, (rider_id r, rider_name r)) <$> my_riders (snd (step c s))
    ≡ₚ (λ r, (rider_id r, rider_name r)) <$> my_riders s.
Proof.
  destruct c as [rid cl| | |].
  - simpl. unfold place_order.
    by destruct (find_by_id rid (my_restaurants s)).
  - simpl. destruct (order_queue s) as [|o pending] eqn:Hq.
    { by rewrite process_order_empty_queue. }
    destruct (process_order_cases s o pending Hq)
      as [(pos & r & Hpos & _ & _ & _ & ->)|[_ ->]]; simpl; [|done].
    split; [done|].
    rewrite list_fmap_insert. simpl. rewrite list_insert_id; [done|].
    by rewrite list_lookup_fmap, Hpos.
  - simpl. split; [done|]. by rewrite list_sort_perm.
  - rewrite step_undo. simpl. unfold undo_last_action.
    by destruct (list_pop (undo_stack s)) as [[last front]|].
Qed.

(** X14.  No run of menu actions adds, removes or renames a restaurant or
    a rider: the chain of restaurants is the very same at the end, and the
    roster holds the same riders, by id and name, possibly in another
    order. *)
Theorem run_keeps_registry_and_roster choices : ∀ s,
  my_restaurants (snd (run choices s)) = my_restaurants s
  ∧ (λ r, (rider_id r, rider_name r)) <$> my_riders (snd (run choices s))
    ≡ₚ (λ r, (rider_id r, rider_name r)) <$> my_riders s
  ∧ length (my_riders (snd (run choices s))) = length (my_riders s).
Proof.
  induction choices as [|c choices IH]; intros s.
  - done.
  - rewrite run_cons. cbn [fst snd].
    destruct (IH (snd (step c s))) as (IHregs & IHriders & IHlen).
    destruct (step_roster c s) as [Hregs Hriders].
    split; [congruence|]. split; [by rewrite IHriders|].
    rewrite IHlen. apply Permutation_length in Hriders.
    by rewrite !length_fmap in Hriders.
Qed.

(** The seeded roster and order 1: Hamza is closer than 1000, and the order
    goes to Ali, who is as close and earlier in the roster. *)
Lemma process_order_nearest_witness :
  ∃ pos r,
    my_riders (snd (place_order 101 7 seeded)) !! pos = Some r
    ∧ (∀ j rj, my_riders (snd (place_order 101 7 seeded)) !! j = Some rj →
         dist_to 2 r ≤ dist_to 2 rj)
    ∧ (∀ j rj, (j < pos)%nat →
         my_riders (snd (place_order 101 7 seeded)) !! j = Some rj →
         dist_to 2 r < dist_to 2 rj)
    ∧ ∃ dc total s',
        process_order (snd (place_order 101 7 seeded))
        = (Assigned (mkOrder 1 "Burger King" 2 7) pos
             (delivered (mkOrder 1 "Burger King" 2 7) r) (dist_to 2 r) dc total, s').
Proof.
  apply (process_order_nearest (snd (place_order 101 7 seeded))
           (mkOrder 1 "Burger King" 2 7) [] 2 (mkRider 203 "Hamza" 3 0)).
  - reflexivity.
  - reflexivity.
  - reflexivity.
Defined.


(** ** Order identifiers, continued *)

Lemma run_restaurants choices : ∀ s,
  my_restaurants (snd (run choices s)) = my_restaurants s.
Proof.
  induction choices as [|c choices IH]; intros s; [done|].
  rewrite run_cons. cbn [snd]. rewrite IH. apply step_roster.
Qed.

(** A menu action hands out an id exactly when it orders from a restaurant
    of the chain. *)
Lemma step_placed c s :
  length (option_list (placed_id (fst (step c s))))
  = if orders_from (my_restaurants s) c then 1%nat else 0%nat.
Proof.
  destruct c as [rid cl| | |]; simpl.
  - unfold place_order.
    destruct (find_by_id rid (my_restaurants s)) as [r|] eqn:Hfind; simpl.
    + apply find_by_id_Some in Hfind as [Hin <-].
      rewrite bool_decide_true; [done|]. by apply list_elem_of_fmap_2.
    + apply find_by_id_None in Hfind. by rewrite bool_decide_false.
  - unfold process_order. destruct (order_queue s); [done|].
    by destruct (scan_riders _ _ _ _ _) as [[[pos r]|] d].
  - done.
  - unfold undo_last_action.
    by destruct (list_pop (undo_stack s)) as [[last front]|].
Qed.

Lemma run_placed_count choices : ∀ s,
  length (placed_ids (fst (run choices s)))
  = length (filter (λ c, orders_from (my_restaurants s) c = true) choices).
Proof.
  unfold placed_ids.
  induction choices as [|c choices IH]; intros s; [done|].
  rewrite run_cons. cbn [fst]. rewrite omap_cons_app, length_app, IH, step_placed.
  destruct (step_roster c s) as [-> _].
  rewrite filter_cons.
  case_decide as Hc; [by rewrite Hc|].
  by destruct (orders_from (my_restaurants s) c).
Qed.

(** C6.  Start the engine over any registry and roster and run any
    sequence of menu actions.  Every order for a restaurant of the
    registry, and no other action, is handed an id, and the ids handed out,
    in the order of the actions, are 1, 2, ..., k; hence they increase
    strictly and none occurs twice, and the counter ends at k + 1.  The
    orders themselves carry these ids: the orders taken off the queue
    followed by the orders still waiting carry 1, 2, ..., k, each id on one
    order only. *)
Theorem order_ids_sequential chain riders choices :
  let outs := fst (run choices (engine chain riders)) in
  let s' := snd (run choices (engine chain riders)) in
  let k := length (placed_ids outs) in
  placed_ids outs = seqZ 1 (Z.of_nat k)
  ∧ StronglySorted Z.lt (placed_ids outs)
  ∧ NoDup (placed_ids outs)
  ∧ order_id_counter s' = 1 + Z.of_nat k
  ∧ Forall (λ o, order_id o ∈ placed_ids outs) (order_queue s')
  ∧ k = length (filter (λ c, orders_from chain c = true) choices)
  ∧ order_id <$> (dequeued_orders outs ++ order_queue s') = seqZ 1 (Z.of_nat k)
  ∧ NoDup (order_id <$> (dequeued_orders outs ++ order_queue s')).
Proof.
  intros outs s' k. subst outs s' k.
  destruct (run_placed_ids choices (engine chain riders)) as [Hids Hctr].
  pose proof (run_queue_ids choices (engine chain riders)) as Hq.
  simpl in Hids, Hctr, Hq. rewrite <- fmap_app in Hq.
  split; [done|]. split; [|split; [|split; [done|split; [|split; [|split]]]]].
  - rewrite Hids. apply seqZ_StronglySorted.
  - rewrite Hids. apply NoDup_seqZ.
  - apply Forall_forall. intros o Hin.
    apply run_queue in Hin as [Hin|Hin]; [|done].
    simpl in Hin. by apply elem_of_nil in Hin.
  - apply (run_placed_count choices (engine chain riders)).
  - by rewrite Hq.
  - rewrite Hq, Hids. apply NoDup_seqZ.
Qed.

(** ** The console *)

Section Console.
Variable printable : Z → bool.
Variable parse_int : string → option Z.

Lemma display_raises chain :
  display printable chain = false → ∃ z, printable z = false.
Proof.
  induction chain as [|data next IH]; simpl; [done|].
  destruct (printable (rest_id data)) eqn:Hid; [|by eauto].
  destruct (printable (rest_location data)) eqn:Hloc; [|by eauto].
  exact IH.
Qed.

Lemma riders_line_raises (riders : list Rider) :
  forallb (λ r, printable (rider_location r) && printable (deliveries_done r)) riders
  = false →
  ∃ z, printable z = false.
Proof.
  induction riders as [|r riders IH]; simpl; [done|].
  destruct (printable (rider_location r)) eqn:Hloc; [|by eauto].
  destruct (printable (deliveries_done r)) eqn:Hdone; [|by eauto].
  exact IH.
Qed.

(** Each action at the console either completes, with the result and the
    state of the action as modelled above, or stops at a number that
    cannot be printed; it has then written no history entry and changed
    no restaurant. *)
Lemma place_order_console_cases rid cl s :
  place_order_console printable rid cl s
  = Completed (fst (place_order rid cl s)) (snd (place_order rid cl s))
  ∨ (∃ s1, place_order_console printable rid cl s = Raised s1
           ∧ (∃ z, printable z = false)
           ∧ my_restaurants s1 = my_restaurants s
           ∧ undo_stack s1 = undo_stack s).
Proof.
  unfold place_order_console, place_order.
  destruct (find_by_id rid (my_restaurants s)) as [r|]; [|by left].
  simpl. destruct (printable (order_id_counter s)) eqn:Hp; [by left|].
  right. eexists. repeat split; eauto.
Qed.

Lemma process_order_console_cases s :
  process_order_console printable s
  = Completed (fst (process_order s)) (snd (process_order s))
  ∨ (∃ s1, process_order_console printable s = Raised s1
           ∧ (∃ z, printable z = false)
           ∧ my_restaurants s1 = my_restaurants s
           ∧ undo_stack s1 = undo_stack s).
Proof.
  unfold process_order_console, process_order.
  destruct (order_queue s) as [|o pending]; [by left|].
  destruct (printable (order_id o)) eqn:Hid;
    [|right; eexists; repeat split; eauto].
  destruct (scan_riders _ _ _ _ _) as [[[pos r]|] d]; [|by left].
  destruct (printable d) eqn:Hd; simpl;
    [|right; eexists; repeat split; eauto].
  destruct (printable (Z.abs (restaurant_loc o - customer_loc o))) eqn:Hdc; simpl;
    [|right; eexists; repeat split; eauto].
  destruct (printable (d + Z.abs (restaurant_loc o - customer_loc o))) eqn:Htotal;
    [by left|right; eexists; repeat split; eauto].
Qed.

Lemma show_riders_sorted_console_cases s :
  show_riders_sorted_console printable s
  = Completed (fst (show_riders_sorted s)) (snd (show_riders_sorted s))
  ∨ (∃ s1, show_riders_sorted_console printable s = Raised s1
           ∧ (∃ z, printable z = false)
           ∧ my_restaurants s1 = my_restaurants s
           ∧ undo_stack s1 = undo_stack s).
Proof.
  unfold show_riders_sorted_console, show_riders_sorted.
  destruct (forallb _ _) eqn:Hlines; [by left|].
  right. eexists. split; [done|]. split; [|done].
  by apply riders_line_raises in Hlines.
Qed.

Lemma after_events e x : fst (fst (after e x)) = e :: fst (fst x).
Proof. by destruct x as [[events ending] s]. Qed.

Lemma after_ending e x : snd (fst (after e x)) = snd (fst x).
Proof. by destruct x as [[events ending] s]. Qed.

Lemma after_state e x : snd (after e x) = snd x.
Proof. by destruct x as [[events ending] s]. Qed.


Lemma step_place rid cl s :
  step (PlaceNewOrder rid cl) s
  = (OutPlace (fst (place_order rid cl s)), snd (place_order rid cl s)).
Proof. simpl. by destruct (place_order rid cl s). Qed.

Lemma step_process s :
  step ProcessNextOrder s
  = (OutProcess (fst (process_order s)), snd (process_order s)).
Proof. simpl. by destruct (process_order s). Qed.

Lemma follows_run_stop ending s :
  ending ≠ Traceback → follows_run printable ([], ending, s) s.
Proof.
  intros Hend. exists []. simpl. repeat split; try done.
  intros _. apply not_elem_of_nil.
Qed.

Lemma follows_run_raise s s1 :
  (∃ z, printable z = false) →
  my_restaurants s1 = my_restaurants s → undo_stack s1 = undo_stack s →
  follows_run printable ([], Traceback, s1) s.
Proof.
  intros Hz Hregs Hstack. exists []. simpl. repeat split; try done.
  intros _. apply not_elem_of_nil.
Qed.

Lemma follows_run_skip e session s :
  ran e = None → is_undo e = false →
  follows_run printable session s → follows_run printable (after e session) s.
Proof.
  intros He Hundo (choices & Houts & Hno & Hstate & Hraise & Hregs & Hstack).
  exists choices. rewrite after_events, after_ending, after_state.
  unfold ran_outputs in *. rewrite omap_cons_eq, He.
  repeat split; try done.
  intros Hall. apply Hno. by apply Forall_cons in Hall as [_ Hall].
Qed.

Lemma follows_run_step c session s :
  follows_run printable session (snd (step c s)) →
  follows_run printable (after (Ran (fst (step c s))) session) s.
Proof.
  intros (choices & Houts & Hno & Hstate & Hraise & Hregs & Hstack).
  exists (c :: choices). rewrite after_events, after_ending, after_state.
  unfold ran_outputs in *. rewrite omap_cons_eq, run_cons. cbn [ran fst snd].
  rewrite Houts. repeat split; try done.
  - intros Hall. apply Forall_cons in Hall as [Hc Hall].
    apply not_elem_of_cons. split; [|by apply Hno].
    intros <-. rewrite step_undo in Hc. discriminate.
  - rewrite Hregs. apply step_roster.
Qed.

(** Whatever the lines are, a session follows a run of menu choices:
    lines that are no menu choice and numbers that do not parse change
    nothing, and a print that raises ends the session. *)
Lemma main_loop_follows n : ∀ lines s,
  (length lines ≤ n)%nat →
  follows_run printable (main_loop printable parse_int lines s) s.
Proof.
  induction n as [|n IH]; intros lines s Hlen.
  { destruct lines; [by apply follows_run_stop | simpl in Hlen; lia]. }
  destruct lines as [|choice lines]; [by apply follows_run_stop|].
  simpl in Hlen. simpl.
  destruct (String.eqb choice "1").
  { destruct (display printable (my_restaurants s)) eqn:Hshow;
      [|apply follows_run_raise; [by apply display_raises in Hshow|done..]].
    destruct lines as [|line1 lines]; [by apply follows_run_stop|]. simpl in Hlen.
    destruct (parse_int line1) as [rid|];
      [|apply follows_run_skip; [done..|apply IH; lia]].
    destruct lines as [|line2 lines]; [by apply follows_run_stop|]. simpl in Hlen.
    destruct (parse_int line2) as [cl|];
      [|apply follows_run_skip; [done..|apply IH; lia]].
    destruct (place_order_console_cases rid cl s) as [->|(s1 & -> & Hz & Hregs & Hstack)];
      [|by apply follows_run_raise].
    pose proof (follows_run_step (PlaceNewOrder rid cl)
                  (main_loop printable parse_int lines
                     (snd (step (PlaceNewOrder rid cl) s))) s) as Hstep.
    rewrite step_place in Hstep. apply Hstep, IH. lia. }
  destruct (String.eqb choice "2").
  { destruct (process_order_console_cases s) as [->|(s1 & -> & Hz & Hregs & Hstack)];
      [|by apply follows_run_raise].
    pose proof (follows_run_step ProcessNextOrder
                  (main_loop printable parse_int lines
                     (snd (step ProcessNextOrder s))) s) as Hstep.
    rewrite step_process in Hstep. apply Hstep, IH. lia. }
  destruct (String.eqb choice "3").
  { destruct (show_riders_sorted_console_cases s)
      as [->|(s1 & -> & Hz & Hregs & Hstack)];
      [|by apply follows_run_raise].
    apply (follows_run_step ViewRiders), IH. lia. }
  destruct (String.eqb choice "4").
  { pose proof (follows_run_step UndoLastAction
                  (main_loop printable parse_int lines
                     (snd (step UndoLastAction s))) s) as Hstep.
    rewrite step_undo in Hstep. cbn [fst snd] in Hstep.
    destruct (undo_last_action s) as [r s1]. apply Hstep, IH. lia. }
  destruct (String.eqb choice "5"); [by apply follows_run_stop|].
  apply follows_run_skip; [done..|apply IH; lia].
Qed.

(** X8.  In any console session in which nothing was undone, whatever its
    lines and however it ends, the history at the end is the history at
    the start followed by exactly one entry for each order placed and each
    order assigned, in the order of the actions.  An unknown restaurant, an
    empty queue, a processing that found no rider, a rider view, an
    invalid line and an action that a failing print cut short add
    nothing. *)
Theorem history_is_log lines s :
  let session := main_loop printable parse_int lines s in
  Forall (λ e, is_undo e = false) (fst (fst session)) →
  undo_stack (snd session)
  = undo_stack s ++ omap description (ran_outputs (fst (fst session))).
Proof.
  intros session Hall. subst session.
  destruct (main_loop_follows (length lines) lines s (Nat.le_refl _))
    as (choices & Houts & Hno & _ & _ & _ & Hstack).
  rewrite Hstack, Houts. apply run_history. by apply Hno.
Qed.



End Console.

Lemma history_is_log_witness :
  let session :=
    main_loop (printable_upto 640) parse_decimal
      ["1"; "102"; pretty (- (10 ^ 640 - 1)); "2"] seeded in
  undo_stack (snd session)
  = undo_stack seeded ++ omap description (ran_outputs (fst (fst session))).
Proof.
  apply (history_is_log (printable_upto 640) parse_decimal
           ["1"; "102"; pretty (- (10 ^ 640 - 1)); "2"] seeded).
  vm_compute. repeat constructor.
Defined.

(** With the limit at 640 digits, an order for restaurant 102 from a
    customer at minus 640 nines: the order is placed and, when processed,
    assigned to Bilal; the time to the customer has 641 digits, printing it
    raises, and the session stops
    with Bilal's delivery counted, the order off the queue and no history
    entry for the processing. *)
Example main_print_raises :
  let session :=
    main (printable_upto 640) parse_decimal
      ["1"; "102"; pretty (- (10 ^ 640 - 1)); "2"; "5"] in
  fst session = ([Ran (OutPlace (Success 1))], Traceback)
  ∧ undo_stack (snd session) = ["Placed Order #1"]
  ∧ order_queue (snd session) = []
  ∧ deliveries_done <$> my_riders (snd session) = [0; 3; 0].
Proof. vm_compute. done. Qed.

